(** * GPT4ALL-collector: the prompt scraper ([prompt-scrape/scrape.py])

    A shallow embedding of [Scraper.get_responses], [Scraper.collector] and
    the [__main__] block, and the properties of the sharding, of the
    per-prompt failure handling and of the collection loop.

    The program only talks to the outside (the completion API, the
    [jsonlines] files, the logger); it never reads back what it wrote.  Its
    behaviour is therefore modelled as the sequence of external calls it
    makes (a trace of events) together with how it ends (returns or raises),
    the answers of the outside being supplied by a [World]. *)

From stdpp Require Import gmap strings list fin_maps.
From Stdlib Require Import ZArith Lia Ascii.

Open Scope Z_scope.

(** ** Python values *)

(** The errors a call can raise, as far as the two [except] clauses of the
    program tell them apart.  [KeyboardInterrupt] derives from
    [BaseException] only; every other constructor is a class derived from
    [Exception].  A subclass of [ValueError] or [IndexError] (a pydantic
    validation error, a [UnicodeEncodeError]) is represented by its base
    class, which is what [except] looks at; [OtherError cls] is any further
    class derived from [Exception] and from none of the named ones.
    [SystemExit] and [GeneratorExit], which signal no error, are left
    out. *)
Inductive exn :=
| KeyboardInterrupt
| ValueError
| IndexError
| KeyError
| ZeroDivisionError
| OtherError (cls : string).

(** [except Exception] (line 77). *)
Definition is_Exception (e : exn) : bool :=
  match e with
  | KeyboardInterrupt => false
  | _ => true
  end.

(** [except (KeyboardInterrupt, ValueError, IndexError)] (line 56). *)
Definition recognized (e : exn) : bool :=
  match e with
  | KeyboardInterrupt | ValueError | IndexError => true
  | _ => false
  end.

(** JSON values; a Python [dict] with string keys is a [gmap string _]. *)
#[warnings="-register-all"]
Inductive json :=
| JNull
| JInt (z : Z)
| JStr (s : string)
| JObj (fields : gmap string json).

(** The arguments [OpenAIChat] is constructed with. *)
Record ModelConfig := {
  model_name : string;
  openai_api_key : option string;
  model_kwargs : gmap string json
}.

(** ** The outside world *)

(** What the program does to the outside, in order. *)
Inductive event :=
| EvCall (model : ModelConfig) (idx : Z) (prompt : string)
    (* [model(prompt)] is invoked for the prompt at position [idx] *)
| EvAppend (path : string) (line : json)
    (* a line has been appended to the file at [path] *)
| EvWarn (msg : string).
    (* [logger.warning(msg)] *)

(** What the outside answers.  Calls that concern one prompt are keyed by the
    position [idx] of that prompt in [all_prompts], so that two occurrences of
    the same prompt text may be answered differently.  [None] means that the
    call returned normally. *)
Record World := {
  (* the raw draw behind [random.randint], one per shard *)
  random_draw : Z -> Z;
  (* [OpenAIChat(...)]: validation of the configuration *)
  openai_chat : ModelConfig -> option exn;
  (* [model(prompt)] *)
  model_call : ModelConfig -> Z -> string -> exn + string;
  (* [jsonlines.open(path, mode="a")] *)
  jsonlines_open : string -> Z -> option exn;
  (* [writer.write(obj)]: either the line is appended, or it raises and
     nothing is appended *)
  writer_write : string -> Z -> json -> option exn;
  (* [jsonlines.open(path, mode="r")]: the error of the open, or what the
     iteration over the reader meets line by line, a record or the error
     raised at a line that cannot be decoded *)
  reader : string -> exn + list (exn + gmap string string)
}.

(** ** Computations: a trace of events and a result *)

Definition M (A : Type) : Type := list event * (exn + A).

#[global] Instance M_ret : MRet M := λ A x, ([], inr x).

#[global] Instance M_bind : MBind M := λ A B f c,
  match c with
  | (tr, inl e) => (tr, inl e)
  | (tr, inr a) => let '(tr', r) := f a in (tr ++ tr', r)
  end.

Definition raise {A} (e : exn) : M A := ([], inl e).

Definition emit (ev : event) : M unit := ([ev], inr tt).

(** [try: body except classes: handler]; an exception of another class
    passes through. *)
Definition try_except {A} (body : M A) (classes : exn -> bool) (handler : M A) : M A :=
  match body with
  | (tr, inl e) =>
      if classes e then let '(tr', r) := handler in (tr ++ tr', r)
      else (tr, inl e)
  | ok => ok
  end.

(** [for x in xs: body(x)]. *)
Fixpoint for_each {A} (xs : list A) (body : A -> M unit) : M unit :=
  match xs with
  | [] => mret tt
  | x :: xs' => body x;; for_each xs' body
  end.

(** A call that has no effect unless it raises. *)
Definition check (r : option exn) : M unit :=
  match r with
  | Some e => raise e
  | None => mret tt
  end.

(** The lines appended to the file at [path] by a trace. *)
Definition store (path : string) (tr : list event) : list json :=
  omap (λ ev, match ev with
              | EvAppend p line => if decide (p = path) then Some line else None
              | _ => None
              end) tr.

(** The prompts the completion API was called with, in order. *)
Definition calls (tr : list event) : list (ModelConfig * Z * string) :=
  omap (λ ev, match ev with
              | EvCall m idx p => Some (m, idx, p)
              | _ => None
              end) tr.

(** ** Python built-ins *)

(** A slice bound is clamped into [0, len], a negative one counting from the
    end. *)
Definition slice_bound (len i : Z) : Z :=
  if bool_decide (i < 0) then Z.max 0 (i + len) else Z.min i len.

(** [l[i:j]]. *)
Definition py_slice {A} (l : list A) (i j : Z) : list A :=
  let len := Z.of_nat (length l) in
  let lo := slice_bound len i in
  let hi := slice_bound len j in
  take (Z.to_nat (hi - lo)) (drop (Z.to_nat lo) l).

(** [range(start, stop, step)], produced the way the iterator does: one
    element at a time while the bound is not reached. *)
Fixpoint range_up (fuel : nat) (i stop step : Z) : list Z :=
  match fuel with
  | O => []
  | S fuel' =>
      if bool_decide (i < stop) then i :: range_up fuel' (i + step) stop step
      else []
  end.

Fixpoint range_down (fuel : nat) (i stop step : Z) : list Z :=
  match fuel with
  | O => []
  | S fuel' =>
      if bool_decide (stop < i) then i :: range_down fuel' (i + step) stop step
      else []
  end.

Definition py_range (start stop step : Z) : exn + list Z :=
  if bool_decide (step = 0) then inl ValueError
  else if bool_decide (0 < step)
       then inr (range_up (Z.to_nat (stop - start)) start stop step)
       else inr (range_down (Z.to_nat (start - stop)) start stop step).

(** [a // b]; Rocq's [Z.div] rounds towards minus infinity as Python does. *)
Definition floordiv (a b : Z) : exn + Z :=
  if bool_decide (b = 0) then inl ZeroDivisionError else inr (a / b).

(** [x or y] on optional strings: [None] and the empty string are falsy. *)
Definition py_or (x y : option string) : option string :=
  match x with
  | Some s => if decide (s = "") then y else x
  | None => y
  end.

(** The elements of a list paired with their positions, counted from [lo]. *)
Fixpoint enumerate_from {A} (lo : Z) (l : list A) : list (Z * A) :=
  match l with
  | [] => []
  | x :: l' => (lo, x) :: enumerate_from (lo + 1) l'
  end.

(** ** The scraper *)

Section Scraper.

Variable w : World.

(** [self.openai_api_keys]; [None] is an absent key. *)
Variable openai_api_keys : list (option string).

(** [random.randint(a, b)]: a number of [a..b], [ValueError] on an empty
    range. *)
Definition randint (shard : Z) (a b : Z) : M Z :=
  if bool_decide (b < a) then raise ValueError
  else mret (a + random_draw w shard `mod` (b - a + 1)).

(** [l[k]] for a list and a non-negative [k]. *)
Definition index {A} (l : list A) (k : Z) : M A :=
  match l !! Z.to_nat k with
  | Some x => mret x
  | None => raise IndexError
  end.

(** [d['prompt']]. *)
Definition get_prompt (d : gmap string string) : M string :=
  match d !! "prompt" with
  | Some p => mret p
  | None => raise KeyError
  end.

(** [[d['prompt'] for d in ds]]. *)
Fixpoint prompts_of (ds : list (gmap string string)) : M (list string) :=
  match ds with
  | [] => mret []
  | d :: ds' => p ← get_prompt d; ps ← prompts_of ds'; mret (p :: ps)
  end.

(** [OpenAIChat(model_name=.., openai_api_key=.., model_kwargs=..)]. *)
Definition OpenAIChat (name : string) (key : option string)
    (kwargs : gmap string json) : M ModelConfig :=
  let cfg := {| model_name := name; openai_api_key := key; model_kwargs := kwargs |} in
  check (openai_chat w cfg);; mret cfg.

(** [output = model(prompt)]. *)
Definition call (model : ModelConfig) (idx : Z) (prompt : string) : M string :=
  emit (EvCall model idx prompt);;
  match model_call w model idx prompt with
  | inl e => raise e
  | inr output => mret output
  end.

(** [writer.write(obj)] on the file opened at [path]. *)
Definition write (path : string) (idx : Z) (obj : json) : M unit :=
  match writer_write w path idx obj with
  | Some e => raise e
  | None => emit (EvAppend path obj)
  end.

(** The body of the loop of [get_responses] (lines 51-59). *)
Definition process_prompt (model : ModelConfig) (model_settings : gmap string json)
    (output_path source : string) (item : Z * string) : M unit :=
  let '(idx, prompt) := item in
  output ← call model idx prompt;
  check (jsonlines_open w output_path idx);;
  try_except
    (let json_data := JObj {[ "prompt" := JStr prompt;
                              "response" := JStr output;
                              "model_settings" := JObj model_settings;
                              "source" := JStr source ]} in
     write output_path idx json_data)
    recognized
    (emit (EvWarn "Something went wrong with this prompt! Skipping to next one");;
     check (jsonlines_open w (output_path +:+ "_fails.jsonl") idx);;
     write (output_path +:+ "_fails.jsonl") idx (JStr prompt)).

(** [Scraper.get_responses] (lines 20-59). *)
Definition get_responses (all_prompts : list (gmap string string)) (i shard_size : Z)
    (model_settings : gmap string json) (output_path source : string) : M unit :=
  prompts ← prompts_of (py_slice all_prompts i (i + shard_size));
  k ← randint i 0 (Z.of_nat (length openai_api_keys) - 1);
  key ← index openai_api_keys k;
  model ← OpenAIChat "gpt-3.5-turbo" key {[ "max_tokens" := JInt (-1) ]};
  for_each (enumerate_from (slice_bound (Z.of_nat (length all_prompts)) i) prompts)
           (process_prompt model model_settings output_path source).

End Scraper.

(** [model_settings: dict = {"max_tokens": -1}], the default of
    [get_responses]. *)
Definition default_model_settings : gmap string json := {[ "max_tokens" := JInt (-1) ]}.

(** ** The process pool *)

(** The worker processes share nothing but the files.  What a unit of work
    does is fixed by its arguments and by the world; what the pool adds is the
    order in which the steps of different units happen and the order in which
    the finished units are handed to the collection loop.  Both are chosen by
    the operating system: [turns] names, step by step, the unit that moves
    next (a turn of a unit that cannot move is lost), [completion] the units
    in the order [as_completed] yields them. *)
Record Schedule := {
  turns : list nat;
  completion : list nat
}.

Definition unfinished (tr : list event) : bool :=
  match tr with
  | [] => false
  | _ => true
  end.

(** The executor starts the units in the order of submission, a new one as
    soon as one of its [max_workers] processes is free: unit [k] runs when
    fewer than [max_workers] units submitted before it are still at work. *)
Definition may_run (max_workers : Z) (k : nat) (rest : list (list event)) : bool :=
  bool_decide (Z.of_nat (length (filter (λ tr, unfinished tr) (take k rest))) < max_workers).

(** When the turns are used up every unit runs to its end, in the order of
    submission ([shutdown(wait=True)] on leaving the [with] block). *)
Fixpoint drain (k : nat) (rest : list (list event)) : list (nat * event) :=
  match rest with
  | [] => []
  | tr :: rest' => ((λ ev, (k, ev)) <$> tr) ++ drain (S k) rest'
  end.

(** The events of all units in the order they happen, each with the number
    of its unit; [rest] holds what every unit still has to do. *)
Fixpoint interleave (max_workers : Z) (turns : list nat) (rest : list (list event))
    : list (nat * event) :=
  match turns with
  | [] => drain 0 rest
  | k :: turns' =>
      match rest !! k with
      | Some (ev :: tr) =>
          if may_run max_workers k rest
          then (k, ev) :: interleave max_workers turns' (<[k := tr]> rest)
          else interleave max_workers turns' rest
      | _ => interleave max_workers turns' rest
      end
  end.

(** The events of unit [k] in a timeline. *)
Definition events_of (k : nat) (timeline : list (nat * event)) : list event :=
  omap (λ '(j, ev), if decide (j = k) then Some ev else None) timeline.

(** [concurrent.futures.as_completed(futures)] for [n] futures: every future
    once, the ones named by the schedule first and in that order. *)
Definition as_completed (completion : list nat) (n : nat) : list nat :=
  let first := remove_dups (filter (λ k, (k < n)%nat) completion) in
  first ++ list_difference (seq 0 n) first.

(** ** The dispatcher *)

Inductive log_entry :=
| LogInfo (msg : string)
| LogException (e : exn).

(** [tqdm(total=..)] and its counter. *)
Record Progress := {
  total : Z;
  n : Z
}.

(** What a run of [collector] amounts to. *)
Record Report := {
  (* the [i] of every unit of work submitted to the executor *)
  submitted : list Z;
  (* the events of the workers, each with the number of its unit *)
  timeline : list (nat * event);
  (* the log of the parent process *)
  log : list log_entry;
  (* the progress bar, once created *)
  progress : option Progress;
  (* how the call ends *)
  outcome : exn + unit
}.

(** The loop over [as_completed] (lines 74-80): the results of the futures in
    the order of completion. *)
Fixpoint collect (results : list (exn + unit)) (count : Z) (logged : list log_entry)
    : Z * list log_entry * (exn + unit) :=
  match results with
  | [] => (count, logged, inr tt)
  | inr _ :: results' => collect results' (count + 1) logged
  | inl e :: results' =>
      if is_Exception e
      then collect results' (count + 1) (logged ++ [LogException e])
      else (count, logged, inl e)
  end.

Section Dispatcher.

Variable w : World.
Variable openai_api_keys : list (option string).

(** [Scraper.collector] (lines 61-80). *)
Definition collector (all_prompts : list (gmap string string))
    (num_workers shard_size : Z) (output_path source : string)
    (sched : Schedule) : Report :=
  let len := Z.of_nat (length all_prompts) in
  let log0 := [LogInfo "Generating Pairs"] in
  match floordiv len shard_size with
  | inl e =>
      {| submitted := []; timeline := []; log := log0; progress := None;
         outcome := inl e |}
  | inr tot =>
      (* [ProcessPoolExecutor(max_workers=..)] refuses a pool without workers *)
      if bool_decide (num_workers ≤ 0) then
        {| submitted := []; timeline := []; log := log0;
           progress := Some {| total := tot; n := 0 |};
           outcome := inl ValueError |}
      else
        match py_range 0 len shard_size with
        | inl e =>
            {| submitted := []; timeline := []; log := log0;
               progress := Some {| total := tot; n := 0 |};
               outcome := inl e |}
        | inr starts =>
            let futures :=
              (λ i, get_responses w openai_api_keys all_prompts i shard_size
                      default_model_settings output_path source) <$> starts in
            let order := as_completed (completion sched) (length futures) in
            let results := omap (λ k, snd <$> futures !! k) order in
            let '(count, logged, res) := collect results 0 log0 in
            {| submitted := starts;
               timeline := interleave num_workers (turns sched) (fst <$> futures);
               log := logged;
               progress := Some {| total := tot; n := count |};
               outcome := res |}
        end
  end.

End Dispatcher.

(** ** The command line *)

Record Args := {
  input_file : string;
  output_file : string;
  arg_openai_api_key : option string
}.

(** One step of [for datum in reader]: the next record, or the error of a
    line that cannot be decoded. *)
Definition next_datum (line : exn + gmap string string) : M (gmap string string) :=
  match line with
  | inl e => raise e
  | inr datum => mret datum
  end.

(** The loop of lines 99-101: the prompt of a record is taken as soon as the
    record is read, before the next line is looked at. *)
Fixpoint read_prompts (lines : list (exn + gmap string string))
    : M (list (gmap string string)) :=
  match lines with
  | [] => mret []
  | line :: lines' =>
      datum ← next_datum line;
      prompt ← get_prompt datum;
      all_data ← read_prompts lines';
      mret ({[ "prompt" := prompt ]} :: all_data)
  end.

(** The [__main__] block (lines 82-107); [environ] is [os.environ] after
    [load_dotenv()]. *)
Definition main (w : World) (args : Args) (environ : gmap string string)
    (sched : Schedule) : Report :=
  let openai_api_key := py_or (arg_openai_api_key args) (environ !! "OPENAI_API_KEY") in
  let scraper := [openai_api_key] in
  let stopped (e : exn) :=
    {| submitted := []; timeline := []; log := []; progress := None;
       outcome := inl e |} in
  match reader w (input_file args) with
  | inl e => stopped e
  | inr lines =>
      match read_prompts lines with
      | (_, inl e) => stopped e
      | (_, inr all_data) =>
          collector w scraper all_data 10 200 (output_file args) "" sched
      end
  end.

(** The contents of the file at [path] after a run that found it holding
    [before]. *)
Definition file_after (before : list json) (path : string) (r : Report) : list json :=
  before ++ store path (snd <$> timeline r).

(** ** Notions used in the statements *)

(** The records of the file at [path] when it can be opened and read to its
    end; the first error otherwise. *)
Fixpoint records_of (lines : list (exn + gmap string string))
    : exn + list (gmap string string) :=
  match lines with
  | [] => inr []
  | inl e :: _ => inl e
  | inr datum :: lines' =>
      match records_of lines' with
      | inl e => inl e
      | inr data => inr (datum :: data)
      end
  end.

Definition read_lines (w : World) (path : string) : exn + list (gmap string string) :=
  match reader w path with
  | inl e => inl e
  | inr lines => records_of lines
  end.

(** The record of line 54. *)
Definition result_record (prompt output : string) (model_settings : gmap string json)
    (source : string) : json :=
  JObj {[ "prompt" := JStr prompt;
          "response" := JStr output;
          "model_settings" := JObj model_settings;
          "source" := JStr source ]}.

(** The prompt a line of the output file was written for. *)
Definition prompt_of_line (line : json) : option string :=
  match line with
  | JObj fields =>
      match fields !! "prompt" with
      | Some (JStr p) => Some p
      | _ => None
      end
  | _ => None
  end.

(** The model a unit of work builds before its loop (lines 45-49). *)
Definition shard_model (w : World) (openai_api_keys : list (option string)) (i : Z)
    : M ModelConfig :=
  k ← randint w i 0 (Z.of_nat (length openai_api_keys) - 1);
  key ← index openai_api_keys k;
  OpenAIChat w "gpt-3.5-turbo" key {[ "max_tokens" := JInt (-1) ]}.

(** The prompts of the shard that starts at [i], each with its position in
    [all_prompts]. *)
Definition shard_items (all_prompts : list (gmap string string)) (i : Z)
    (prompts : list string) : list (Z * string) :=
  enumerate_from (slice_bound (Z.of_nat (length all_prompts)) i) prompts.

(** The number of shards [ceil(N/S)] for a positive [S]. *)
Definition ceil_div (N S : Z) : Z := (N + S - 1) / S.

(** A path with a suffix inserted before its extension, the extension being
    what starts at the last dot.  This follows the wording of the
    specification of the failure store and is only used to compare it with
    the path the program builds. *)
Fixpoint has_dot (s : string) : bool :=
  match s with
  | EmptyString => false
  | String c s' => Ascii.eqb c "."%char || has_dot s'
  end.

Fixpoint spec_insert_before_extension (suffix s : string) : string :=
  match s with
  | EmptyString => suffix
  | String c s' =>
      if Ascii.eqb c "."%char && negb (has_dot s') then suffix +:+ s
      else String c (spec_insert_before_extension suffix s')
  end.

(** The message of line 57. *)
Abbreviation skip_warning := "Something went wrong with this prompt! Skipping to next one"%string.

(** The shard [all_prompts[i : i + shard_size]] holds the prompts [prompts]
    (every record of it has one). *)
Definition holds_prompts (all_prompts : list (gmap string string)) (i shard_size : Z)
    (prompts : list string) : Prop :=
  prompts_of (py_slice all_prompts i (i + shard_size)) = ([], inr prompts).

(** The unit of work for the shard at [i] gets its model built. *)
Definition builds_model (w : World) (keys : list (option string)) (i : Z)
    (model : ModelConfig) : Prop :=
  shard_model w keys i = ([], inr model).

(** What one turn of the loop can look like. *)
Inductive turn_shape (model : ModelConfig) (ms : gmap string json) (out src : string)
    (idx : Z) (p : string) : M unit → Prop :=
| turn_written output :
    turn_shape model ms out src idx p
      ([EvCall model idx p; EvAppend out (result_record p output ms src)], inr tt)
| turn_recorded :
    turn_shape model ms out src idx p
      ([EvCall model idx p; EvWarn skip_warning;
        EvAppend (out +:+ "_fails.jsonl") (JStr p)], inr tt)
| turn_raised e :
    turn_shape model ms out src idx p ([EvCall model idx p], inl e)
| turn_raised_in_handler e :
    turn_shape model ms out src idx p
      ([EvCall model idx p; EvWarn skip_warning], inl e).

(** The call made for an item of a shard. *)
Definition call_of (model : ModelConfig) (item : Z * string) : ModelConfig * Z * string :=
  (model, item.1, item.2).

(** What the collection loop logs for the result of a future, and the
    results it gets past: [except Exception] does not catch the others. *)
Definition logged_error (r : exn + unit) : option log_entry :=
  match r with
  | inl e => Some (LogException e)
  | inr _ => None
  end.

Definition survives (r : exn + unit) : Prop :=
  match r with
  | inl e => is_Exception e = true
  | inr _ => True
  end.

(** Where the shards of a positive size [S] start in an input of length
    [N]. *)
Definition shard_starts (N S : Z) : list Z :=
  (λ k : nat, Z.of_nat k * S) <$> seq 0 (Z.to_nat (ceil_div N S)).

(** ** Worlds and inputs of the examples *)

(** A world where the constructor of the model asks for a key ([ValueError]
    without one), the API answers by [api], [writer.write] answers by
    [wr], every file can be opened, and the input file holds three
    prompts. *)
Definition world_of (api : string → exn + string) (wr : string → json → option exn)
    : World :=
  {| random_draw := λ _, 0;
     openai_chat := λ cfg, match openai_api_key cfg with
                           | Some _ => None
                           | None => Some ValueError
                           end;
     model_call := λ _ _ prompt, api prompt;
     jsonlines_open := λ _ _, None;
     writer_write := λ path _ line, wr path line;
     reader := λ _, inr [ inr {[ "prompt" := "a" ]}; inr {[ "prompt" := "b" ]};
                          inr {[ "prompt" := "c" ]} ] |}.

(** Everything works; the answer to [p] is [re:p]. *)
Definition calm_world : World :=
  world_of (λ p, inr ("re:" +:+ p)) (λ _ _, None).

(** The answer to ["x"] is malformed: [model("x")] raises [ValueError]. *)
Definition malformed_world : World :=
  world_of (λ p, if decide (p = "x") then inl ValueError else inr ("re:" +:+ p))
           (λ _ _, None).

(** The user interrupts the program while the record of ["x"] is written to
    [out.jsonl]: [writer.write] raises [KeyboardInterrupt]. *)
Definition interrupted_world : World :=
  world_of (λ p, inr ("re:" +:+ p))
           (λ path line,
              if decide (path = "out.jsonl" ∧ prompt_of_line line = Some "x")
              then Some KeyboardInterrupt else None).

(** The user interrupts the program while the answer to ["b"] is awaited:
    [model("b")] raises [KeyboardInterrupt]. *)
Definition interrupted_call_world : World :=
  world_of (λ p, if decide (p = "b") then inl KeyboardInterrupt else inr ("re:" +:+ p))
           (λ _ _, None).

(** The API refuses ["b"] with an error of its own. *)
Definition rate_limited_world : World :=
  world_of (λ p, if decide (p = "b") then inl (OtherError "RateLimitError")
                 else inr ("re:" +:+ p))
           (λ _ _, None).

Definition abc : list (gmap string string) :=
  [ {[ "prompt" := "a" ]}; {[ "prompt" := "b" ]}; {[ "prompt" := "c" ]} ].

Definition xy : list (gmap string string) :=
  [ {[ "prompt" := "x" ]}; {[ "prompt" := "y" ]} ].

(** The model every example builds. *)
Definition gpt (key : string) : ModelConfig :=
  {| model_name := "gpt-3.5-turbo"; openai_api_key := Some key;
     model_kwargs := {[ "max_tokens" := JInt (-1) ]} |}.

(** Two schedules: the units one after the other, and the second unit
    first. *)
Definition in_turn : Schedule := {| turns := []; completion := [] |}.

Definition second_first : Schedule :=
  {| turns := [1; 0; 1; 0; 0]%nat; completion := [1; 0]%nat |}.

(** A command line without a key. *)
Definition no_key : Args :=
  {| input_file := "in.jsonl"; output_file := "out.jsonl"; arg_openai_api_key := None |}.

(** ** Further worlds and notions *)

(** The output file cannot be opened for the prompt at position 1: the path
    is refused with [ValueError]. *)
Definition unopenable_world : World :=
  {| random_draw := λ _, 0;
     openai_chat := λ _, None;
     model_call := λ _ _ prompt, inr ("re:" +:+ prompt);
     jsonlines_open := λ path idx,
       if decide (path = "out.jsonl" ∧ idx = 1) then Some ValueError else None;
     writer_write := λ _ _ _, None;
     reader := λ _, inr [] |}.

(** The user interrupts the program while the record of ["x"] is written,
    and once more while ["x"] is written to the failure file. *)
Definition twice_interrupted_world : World :=
  world_of (λ p, inr ("re:" +:+ p))
           (λ path line,
              if decide (path = "out.jsonl" ∧ prompt_of_line line = Some "x")
              then Some KeyboardInterrupt
              else if decide (path = "out.jsonl_fails.jsonl")
                   then Some KeyboardInterrupt else None).

(** A world where nothing ever fails. *)
Definition never_fails (w : World) : Prop :=
  (∀ cfg, openai_chat w cfg = None)
  ∧ (∀ model idx prompt, ∃ output, model_call w model idx prompt = inr output)
  ∧ (∀ path idx, jsonlines_open w path idx = None)
  ∧ (∀ path idx line, writer_write w path idx line = None).

(** A world of that kind: every configuration is accepted, the answer to [p]
    is [re:p], and the input file holds three prompts. *)
Definition easy_world : World :=
  {| random_draw := λ _, 0;
     openai_chat := λ _, None;
     model_call := λ _ _ prompt, inr ("re:" +:+ prompt);
     jsonlines_open := λ _ _, None;
     writer_write := λ _ _ _, None;
     reader := λ _, inr [ inr {[ "prompt" := "a" ]}; inr {[ "prompt" := "b" ]};
                          inr {[ "prompt" := "c" ]} ] |}.

(** The second record of the input file has no prompt, and its third line
    cannot be decoded ([InvalidLineError], a [ValueError]). *)
Definition untidy_world : World :=
  {| random_draw := λ _, 0;
     openai_chat := λ _, None;
     model_call := λ _ _ prompt, inr ("re:" +:+ prompt);
     jsonlines_open := λ _ _, None;
     writer_write := λ _ _ _, None;
     reader := λ _, inr [ inr {[ "prompt" := "a" ]}; inr {[ "text" := "b" ]};
                          inl ValueError ] |}.

(** * Properties *)

(** ** Laws of the computations *)

Lemma bind_ret_l {A B} (x : A) (f : A → M B) : (mret x ≫= f) = f x.
Proof. unfold mbind, mret, M_bind, M_ret. by destruct (f x). Qed.

Lemma bind_raise {A B} (e : exn) (f : A → M B) : (raise e ≫= f) = raise e.
Proof. reflexivity. Qed.

Lemma bind_assoc {A B C} (c : M A) (f : A → M B) (g : B → M C) :
  ((c ≫= f) ≫= g) = (c ≫= λ x, f x ≫= g).
Proof.
  destruct c as [tr [e|a]]; [done|].
  unfold mbind, M_bind. destruct (f a) as [tr1 [e1|b]]; [done|].
  destruct (g b) as [tr2 r2]. by rewrite app_assoc.
Qed.

Lemma bind_returns {A B} (tr : list event) (a : A) (f : A → M B) :
  ((tr, inr a) ≫= f) = (tr ++ (f a).1, (f a).2).
Proof. unfold mbind, M_bind. by destruct (f a). Qed.

Lemma bind_raises {A B} (tr : list event) (e : exn) (f : A → M B) :
  ((tr, inl e) ≫= f) = (tr, inl e).
Proof. reflexivity. Qed.

Lemma for_each_app {A} (xs ys : list A) (body : A → M unit) :
  for_each (xs ++ ys) body = (for_each xs body;; for_each ys body).
Proof.
  induction xs as [|x xs IH].
  - symmetry. apply (bind_ret_l tt (λ _, for_each ys body)).
  - change (for_each ((x :: xs) ++ ys) body) with (body x;; for_each (xs ++ ys) body).
    rewrite IH. symmetry. apply bind_assoc.
Qed.

Lemma for_each_cons {A} (x : A) (xs : list A) (body : A → M unit) :
  for_each (x :: xs) body = (body x;; for_each xs body).
Proof. reflexivity. Qed.

Lemma store_app path tr1 tr2 : store path (tr1 ++ tr2) = store path tr1 ++ store path tr2.
Proof. apply omap_app. Qed.

Lemma calls_app tr1 tr2 : calls (tr1 ++ tr2) = calls tr1 ++ calls tr2.
Proof. apply omap_app. Qed.

(** ** Lists, ranges, slices and paths *)

Lemma enumerate_from_app {A} (lo : Z) (xs ys : list A) :
  enumerate_from lo (xs ++ ys)
  = enumerate_from lo xs ++ enumerate_from (lo + Z.of_nat (length xs)) ys.
Proof.
  revert lo. induction xs as [|x xs IH]; intros lo; simpl.
  - by rewrite Z.add_0_r.
  - rewrite IH. do 3 f_equal. lia.
Qed.

Lemma enumerate_from_lookup {A} (lo : Z) (l : list A) (j : nat) (item : Z * A) :
  enumerate_from lo l !! j = Some item → item.1 = lo + Z.of_nat j ∧ l !! j = Some item.2.
Proof.
  revert lo j. induction l as [|x l IH]; intros lo j; [done|].
  destruct j as [|j]; cbn.
  - intros [= <-]. cbn. split; [lia|done].
  - intros H. apply IH in H as [-> ?]. split; [lia|done].
Qed.

Lemma enumerate_from_length {A} (lo : Z) (l : list A) :
  length (enumerate_from lo l) = length l.
Proof. revert lo. induction l as [|x l IH]; intros lo; cbn; [done|]. by rewrite IH. Qed.

Lemma enumerate_from_snd {A} (lo : Z) (l : list A) : (enumerate_from lo l).*2 = l.
Proof. revert lo. induction l as [|x l IH]; intros lo; cbn; [done|]. by rewrite IH. Qed.

Lemma take_prefix_take {A} (l : list A) (k k' : nat) :
  (k ≤ k')%nat → take k l `prefix_of` take k' l.
Proof.
  intros Hle. replace k with (k `min` k')%nat by lia.
  rewrite <- take_take. apply prefix_take.
Qed.

Lemma omap_seq_lookup {A} (g : nat → option A) (l : list A) (j : nat) :
  (∀ k, (k < length l)%nat → g (j + k)%nat = l !! k) →
  omap g (seq j (length l)) = l.
Proof.
  revert j. induction l as [|x l IH]; intros j Hg; [done|].
  cbn [length seq]. cbn [omap list_omap].
  pose proof (Hg 0%nat ltac:(cbn; lia)) as H0. rewrite Nat.add_0_r in H0.
  rewrite H0. cbn. f_equal. apply IH. intros k Hk.
  replace (S j + k)%nat with (j + S k)%nat by lia. apply Hg. cbn. lia.
Qed.

Lemma ceil_div_bounds (N S : Z) : 0 < S → N ≤ ceil_div N S * S < N + S.
Proof.
  intros HS. unfold ceil_div.
  pose proof (Z.div_mod (N + S - 1) S ltac:(lia)) as Hdm.
  pose proof (Z.mod_pos_bound (N + S - 1) S HS) as Hmod. nia.
Qed.

Lemma ceil_div_nonpos (x S : Z) : 0 < S → x ≤ 0 → ceil_div x S ≤ 0.
Proof.
  intros HS Hx. pose proof (ceil_div_bounds x S HS). nia.
Qed.

Lemma ceil_div_step (x S : Z) : 0 < S → 0 < x → ceil_div x S = 1 + ceil_div (x - S) S.
Proof.
  intros HS Hx. unfold ceil_div.
  replace (x + S - 1) with ((x - S + S - 1) + 1 * S) by lia.
  rewrite Z.div_add by lia. lia.
Qed.

Lemma ceil_div_nonneg (x S : Z) : 0 < S → 0 ≤ x → 0 ≤ ceil_div x S.
Proof. intros HS Hx. unfold ceil_div. apply Z.div_pos; lia. Qed.

Lemma range_up_closed (fuel : nat) (i stop step : Z) :
  0 < step → stop - i ≤ Z.of_nat fuel →
  range_up fuel i stop step
  = (λ k : nat, i + Z.of_nat k * step) <$> seq 0 (Z.to_nat (ceil_div (stop - i) step)).
Proof.
  intros Hstep. revert i. induction fuel as [|fuel IH]; intros i Hfuel.
  - rewrite (Z2Nat.nonpos (ceil_div _ _)); [done|].
    apply ceil_div_nonpos; lia.
  - cbn [range_up]. case_bool_decide as Hlt.
    + rewrite (ceil_div_step (stop - i)) by lia.
      rewrite Z2Nat.inj_add by (try (unfold ceil_div; apply Z.div_pos); lia).
      change (Z.to_nat 1) with 1%nat. cbn [Nat.add seq fmap list_fmap].
      f_equal; [lia|]. rewrite IH by lia.
      replace (stop - (i + step)) with (stop - i - step) by lia.
      rewrite <- fmap_S_seq, <- list_fmap_compose.
      apply list_fmap_ext. intros _ k _. cbn. lia.
    + rewrite (Z2Nat.nonpos (ceil_div _ _)); [done|].
      apply ceil_div_nonpos; lia.
Qed.

Lemma py_range_shards (N S : Z) :
  0 < S →
  py_range 0 N S = inr ((λ k : nat, Z.of_nat k * S) <$> seq 0 (Z.to_nat (ceil_div N S))).
Proof.
  intros HS. unfold py_range.
  rewrite bool_decide_eq_false_2 by lia. rewrite bool_decide_eq_true_2 by lia.
  f_equal. rewrite range_up_closed by lia. rewrite Z.sub_0_r.
  apply list_fmap_ext. intros _ k _. lia.
Qed.

Lemma py_slice_take_drop {A} (l : list A) (i S : Z) :
  0 ≤ i → 0 ≤ S →
  py_slice l i (i + S) = take (Z.to_nat S) (drop (Z.to_nat i) l).
Proof.
  intros Hi HS. unfold py_slice, slice_bound.
  rewrite !bool_decide_eq_false_2 by lia.
  destruct (decide (i ≤ Z.of_nat (length l))) as [Hle|Hgt].
  - rewrite (Z.min_l i) by lia.
    destruct (decide (i + S ≤ Z.of_nat (length l))).
    + rewrite Z.min_l by lia. do 2 f_equal. lia.
    + rewrite Z.min_r by lia.
      rewrite (take_ge _ (Z.to_nat S)).
      2:{ rewrite length_drop. lia. }
      rewrite take_ge; [done|].
      rewrite length_drop.
      lia.
  - rewrite !Z.min_r by lia. rewrite Z.sub_diag. cbn.
    rewrite (drop_ge l (Z.to_nat i)) by lia. by rewrite take_nil.
Qed.

Lemma shards_concat {A} (l : list A) (S : Z) (fuel : nat) (i : Z) :
  0 < S → 0 ≤ i → Z.of_nat (length l) - i ≤ Z.of_nat fuel →
  concat ((λ i, py_slice l i (i + S)) <$> range_up fuel i (Z.of_nat (length l)) S)
  = drop (Z.to_nat i) l.
Proof.
  intros HS. revert i. induction fuel as [|fuel IH]; intros i Hi Hfuel.
  - cbn. rewrite drop_ge; [done|lia].
  - cbn [range_up]. case_bool_decide as Hlt.
    + rewrite fmap_cons. cbn [concat]. rewrite IH by lia.
      rewrite py_slice_take_drop by lia.
      rewrite Z2Nat.inj_add by lia. rewrite <- drop_drop.
      apply take_drop.
    + cbn. rewrite drop_ge; [done|lia].
Qed.

Lemma shard_length {A} (l : list A) (S : Z) (k : nat) :
  0 < S → Z.of_nat k * S < Z.of_nat (length l) →
  Z.of_nat (length (py_slice l (Z.of_nat k * S) (Z.of_nat k * S + S)))
  = Z.min ((Z.of_nat k + 1) * S) (Z.of_nat (length l)) - Z.of_nat k * S.
Proof.
  intros HS Hk. rewrite py_slice_take_drop by lia.
  rewrite length_take, length_drop. lia.
Qed.

Lemma shard_lookup {A} (l : list A) (S : Z) (k j : nat) :
  0 < S →
  (j < length (py_slice l (Z.of_nat k * S) (Z.of_nat k * S + S)))%nat →
  py_slice l (Z.of_nat k * S) (Z.of_nat k * S + S) !! j
  = l !! (Z.to_nat (Z.of_nat k * S)%Z + j)%nat.
Proof.
  intros HS. rewrite py_slice_take_drop by lia. rewrite length_take.
  intros Hj. rewrite lookup_take_lt by lia. apply lookup_drop.
Qed.

Lemma shard_starts_length (N S : Z) :
  0 < S → 0 ≤ N → Z.of_nat (length (shard_starts N S)) = ceil_div N S.
Proof.
  intros HS HN. unfold shard_starts. rewrite length_fmap, length_seq.
  apply Z2Nat.id. by apply ceil_div_nonneg.
Qed.

Lemma shard_starts_lookup (N S : Z) (k : nat) (i : Z) :
  shard_starts N S !! k = Some i ↔ i = Z.of_nat k * S ∧ (k < length (shard_starts N S))%nat.
Proof.
  unfold shard_starts. rewrite length_fmap, length_seq, list_lookup_fmap.
  split.
  - destruct (seq 0 _ !! k) as [k'|] eqn:Hk; [|done].
    apply lookup_seq in Hk as [-> ?]. by intros [= <-].
  - intros [-> Hlt]. by rewrite lookup_seq_lt.
Qed.

Lemma shard_starts_below (N S : Z) (k : nat) :
  0 < S → 0 ≤ N → (k < length (shard_starts N S))%nat → Z.of_nat k * S < N.
Proof.
  intros HS HN Hk. pose proof (shard_starts_length N S HS HN) as Hlen.
  pose proof (ceil_div_bounds N S HS). nia.
Qed.

Lemma append_empty_r (s : string) : s +:+ "" = s.
Proof.
  induction s as [|c s IH]; [done|].
  change (String c s +:+ "") with (String c (s +:+ "")). by rewrite IH.
Qed.

Lemma fails_path_ne (out : string) : out +:+ "_fails.jsonl" ≠ out.
Proof.
  intros H. rewrite <- (append_empty_r out) in H at 2.
  by apply (inj (String.app out)) in H.
Qed.

(** ** The prologue of a unit of work *)

Lemma get_responses_unfold w keys all_prompts i shard_size ms out src :
  get_responses w keys all_prompts i shard_size ms out src
  = (prompts ← prompts_of (py_slice all_prompts i (i + shard_size));
     model ← shard_model w keys i;
     for_each (shard_items all_prompts i prompts) (process_prompt w model ms out src)).
Proof.
  unfold get_responses, shard_model, shard_items.
  destruct (prompts_of _) as [tr [e|prompts]]; [done|].
  rewrite !bind_returns. f_equal; f_equal.
  all: unfold randint; case_bool_decide; [done|].
  all: rewrite !bind_ret_l; unfold index.
  all: destruct (keys !! _) as [key|]; [|done].
  all: rewrite !bind_ret_l; unfold OpenAIChat, check.
  all: destruct (openai_chat w _); [done|].
  all: by rewrite !bind_ret_l.
Qed.

(** The prologue of a unit of work makes no call and writes nothing. *)
Lemma shard_model_silent w keys i : (shard_model w keys i).1 = [].
Proof.
  unfold shard_model, randint. case_bool_decide; [done|].
  rewrite bind_ret_l. unfold index. destruct (keys !! _); [|done].
  rewrite bind_ret_l. unfold OpenAIChat, check.
  by destruct (openai_chat w _).
Qed.

Lemma prompts_of_silent ds : (prompts_of ds).1 = [].
Proof.
  induction ds as [|d ds IH]; [done|].
  cbn [prompts_of]. unfold get_prompt. destruct (d !! "prompt"); [|done].
  rewrite bind_ret_l. destruct (prompts_of ds) as [tr [e|ps]]; simpl in *; by subst.
Qed.

Lemma prompts_of_inr ds tr ps :
  prompts_of ds = (tr, inr ps) → omap (λ d : gmap string string, d !! "prompt") ds = ps.
Proof.
  revert tr ps. induction ds as [|d ds IH]; intros tr ps.
  - by intros [= _ <-].
  - cbn [prompts_of]. unfold get_prompt.
    destruct (d !! "prompt") as [p|] eqn:Hd; [|done].
    rewrite (bind_ret_l p).
    destruct (prompts_of ds) as [tr' [e|ps']]; [done|].
    specialize (IH _ _ eq_refl). rewrite bind_returns.
    intros [= _ <-]. cbn. rewrite Hd. f_equal. exact IH.
Qed.

Lemma prompts_of_raises ds tr e : prompts_of ds = (tr, inl e) → e = KeyError.
Proof.
  revert tr. induction ds as [|d ds IH]; intros tr; [done|].
  cbn [prompts_of]. unfold get_prompt. destruct (d !! "prompt") as [p|]; [|by intros [= _ <-]].
  rewrite (bind_ret_l p). destruct (prompts_of ds) as [tr' [e'|ps]].
  - rewrite bind_raises. intros [= _ <-]. by eapply IH.
  - by rewrite bind_returns.
Qed.

Lemma get_responses_loop w keys all_prompts i shard_size ms out src prompts model :
  prompts_of (py_slice all_prompts i (i + shard_size)) = ([], inr prompts) →
  shard_model w keys i = ([], inr model) →
  get_responses w keys all_prompts i shard_size ms out src
  = for_each (shard_items all_prompts i prompts) (process_prompt w model ms out src).
Proof.
  intros Hp Hm. rewrite get_responses_unfold, Hp.
  rewrite (bind_ret_l prompts). rewrite Hm. apply (bind_ret_l model).
Qed.

(** Either the prologue raises and nothing has happened, or the loop runs. *)
Lemma get_responses_cases w keys all_prompts i shard_size ms out src :
  (∃ e, get_responses w keys all_prompts i shard_size ms out src = ([], inl e))
  ∨ (∃ prompts model,
       prompts_of (py_slice all_prompts i (i + shard_size)) = ([], inr prompts)
       ∧ shard_model w keys i = ([], inr model)
       ∧ get_responses w keys all_prompts i shard_size ms out src
         = for_each (shard_items all_prompts i prompts)
                    (process_prompt w model ms out src)).
Proof.
  rewrite get_responses_unfold.
  pose proof (prompts_of_silent (py_slice all_prompts i (i + shard_size))) as Hp.
  pose proof (shard_model_silent w keys i) as Hm.
  destruct (prompts_of _) as [tr [e|prompts]]; simpl in Hp; subst tr.
  { left. by exists e. }
  rewrite (bind_ret_l prompts).
  destruct (shard_model w keys i) as [tr [e|model]]; simpl in Hm; subst tr.
  { left. by exists e. }
  right. exists prompts, model. by rewrite (bind_ret_l model).
Qed.

Lemma get_responses_split w keys all_prompts i shard_size ms out src model pre p post :
  holds_prompts all_prompts i shard_size (pre ++ p :: post) →
  builds_model w keys i model →
  let idx := slice_bound (Z.of_nat (length all_prompts)) i + Z.of_nat (length pre) in
  get_responses w keys all_prompts i shard_size ms out src
  = (for_each (shard_items all_prompts i pre) (process_prompt w model ms out src);;
     process_prompt w model ms out src (idx, p);;
     for_each (enumerate_from (idx + 1) post) (process_prompt w model ms out src)).
Proof.
  intros Hp Hm idx.
  rewrite (get_responses_loop _ _ _ _ _ _ _ _ _ _ Hp Hm).
  unfold shard_items. rewrite enumerate_from_app, for_each_app. done.
Qed.

Lemma builds_model_config w keys i model :
  builds_model w keys i model →
  model_name model = "gpt-3.5-turbo"
  ∧ model_kwargs model = {[ "max_tokens" := JInt (-1) ]}
  ∧ openai_api_key model ∈ keys.
Proof.
  unfold builds_model, shard_model, randint. case_bool_decide; [done|].
  rewrite bind_ret_l. unfold index.
  destruct (keys !! _) as [key|] eqn:Hkey; [|done].
  rewrite bind_ret_l. unfold OpenAIChat, check.
  destruct (openai_chat w _); [done|]. rewrite bind_ret_l.
  intros [= <-]. cbn. repeat split. by eapply list_elem_of_lookup_2.
Qed.

(** Without a key that the constructor of the model accepts, a unit of work
    ends before its loop. *)
Lemma get_responses_without_key w all_prompts i S ms out src :
  (∀ cfg, openai_api_key cfg = None →
          ∃ e, openai_chat w cfg = Some e ∧ is_Exception e = true) →
  ∃ e, get_responses w [None] all_prompts i S ms out src = ([], inl e)
       ∧ is_Exception e = true.
Proof.
  intros Hkey. rewrite get_responses_unfold.
  pose proof (prompts_of_silent (py_slice all_prompts i (i + S))) as Hsilent.
  destruct (prompts_of _) as [tr [e|prompts]] eqn:Hp; cbn in Hsilent; subst tr.
  - apply prompts_of_raises in Hp as ->. by exists KeyError.
  - rewrite (bind_ret_l prompts). unfold shard_model, randint.
    rewrite bool_decide_eq_false_2 by (cbn; lia).
    rewrite bind_ret_l.
    assert (∀ x, 0 + x `mod` (Z.of_nat (length [None : option string]) - 1 - 0 + 1) = 0)
      as Hzero.
    { intros x. change (Z.of_nat (length [None]) - 1 - 0 + 1) with 1.
      by rewrite Z.mod_1_r. }
    rewrite Hzero.
    change (index [None] 0) with (mret (None : option string) : M (option string)).
    rewrite bind_ret_l. unfold OpenAIChat.
    destruct (Hkey {| model_name := "gpt-3.5-turbo"; openai_api_key := None;
                      model_kwargs := {[ "max_tokens" := JInt (-1) ]} |} eq_refl)
      as (e & -> & He).
    by exists e.
Qed.

(** ** One turn of the loop *)

Lemma process_prompt_success w model ms out src idx p output :
  model_call w model idx p = inr output →
  jsonlines_open w out idx = None →
  writer_write w out idx (result_record p output ms src) = None →
  process_prompt w model ms out src (idx, p)
  = ([EvCall model idx p; EvAppend out (result_record p output ms src)], inr tt).
Proof.
  intros Hc Ho Hw. unfold process_prompt, call, write, check.
  rewrite Hc. cbn. rewrite Ho. cbn. fold (result_record p output ms src). by rewrite Hw.
Qed.

Lemma process_prompt_recorded w model ms out src idx p output e :
  model_call w model idx p = inr output →
  jsonlines_open w out idx = None →
  writer_write w out idx (result_record p output ms src) = Some e →
  recognized e = true →
  jsonlines_open w (out +:+ "_fails.jsonl") idx = None →
  writer_write w (out +:+ "_fails.jsonl") idx (JStr p) = None →
  process_prompt w model ms out src (idx, p)
  = ([EvCall model idx p; EvWarn skip_warning;
      EvAppend (out +:+ "_fails.jsonl") (JStr p)], inr tt).
Proof.
  intros Hc Ho Hw He Hfo Hfw. unfold process_prompt, call, write, check.
  rewrite Hc. cbn. rewrite Ho. cbn. fold (result_record p output ms src).
  rewrite Hw. cbn. rewrite He, Hfo. cbn. by rewrite Hfw.
Qed.

(** An error of the write that is not recognized leaves the loop body. *)
Lemma process_prompt_unrecognized w model ms out src idx p output e :
  model_call w model idx p = inr output →
  jsonlines_open w out idx = None →
  writer_write w out idx (result_record p output ms src) = Some e →
  recognized e = false →
  process_prompt w model ms out src (idx, p) = ([EvCall model idx p], inl e).
Proof.
  intros Hc Ho Hw He. unfold process_prompt, call, write, check.
  rewrite Hc. cbn. rewrite Ho. cbn. fold (result_record p output ms src).
  rewrite Hw. cbn. by rewrite He.
Qed.

(** So does any error of the call, which is made outside the [try]. *)
Lemma process_prompt_call_raises w model ms out src idx p e :
  model_call w model idx p = inl e →
  process_prompt w model ms out src (idx, p) = ([EvCall model idx p], inl e).
Proof.
  intros Hc. unfold process_prompt, call. by rewrite Hc.
Qed.

Lemma process_prompt_shape w model ms out src idx p :
  turn_shape model ms out src idx p (process_prompt w model ms out src (idx, p)).
Proof.
  unfold process_prompt, call, write, check.
  destruct (model_call w model idx p) as [e|output]; [apply turn_raised|].
  cbn. destruct (jsonlines_open w out idx) as [e|]; [apply turn_raised|].
  cbn. fold (result_record p output ms src).
  destruct (writer_write w out idx _) as [e|]; [|apply turn_written].
  cbn. destruct (recognized e); [|apply turn_raised].
  destruct (jsonlines_open w _ idx) as [e'|]; [apply turn_raised_in_handler|].
  cbn. destruct (writer_write w _ idx (JStr p)) as [e'|];
    [apply turn_raised_in_handler|apply turn_recorded].
Qed.

Lemma turn_shape_calls model ms out src idx p tr r :
  turn_shape model ms out src idx p (tr, r) → calls tr = [(model, idx, p)].
Proof. by inversion 1. Qed.

Lemma turn_raised_inv model ms out src idx p tr e :
  turn_shape model ms out src idx p (tr, inl e) →
  calls tr = [(model, idx, p)] ∧ ∀ path, store path tr = [].
Proof. by inversion 1. Qed.

Lemma turn_shape_appends model ms out src idx p tr r path line :
  turn_shape model ms out src idx p (tr, r) →
  EvAppend path line ∈ tr →
  (path = out ∧ ∃ output, line = result_record p output ms src)
  ∨ (path = out +:+ "_fails.jsonl" ∧ line = JStr p).
Proof.
  intros Hshape Hin. inversion Hshape; subst;
    repeat match goal with
    | H : _ ∈ _ :: _ |- _ => apply elem_of_cons in H as [H|H]
    | H : _ ∈ [] |- _ => by apply elem_of_nil in H
    | H : EvAppend _ _ = EvAppend _ _ |- _ => injection H as -> ->
    | H : EvAppend _ _ = _ |- _ => discriminate H
    end; eauto.
Qed.

Lemma turn_shape_store_out model ms out src idx p tr r :
  turn_shape model ms out src idx p (tr, r) →
  store out tr = [] ∨ ∃ output, store out tr = [result_record p output ms src].
Proof.
  inversion 1; subst; unfold store; cbn.
  - right. exists output. by rewrite decide_True.
  - left. by rewrite decide_False by apply fails_path_ne.
  - by left.
  - by left.
Qed.

Lemma result_record_fields p output ms src :
  ∃ fields, result_record p output ms src = JObj fields
    ∧ dom fields = ({[ "prompt"; "response"; "model_settings"; "source" ]} : gset string)
    ∧ fields !! "prompt" = Some (JStr p)
    ∧ fields !! "response" = Some (JStr output)
    ∧ fields !! "model_settings" = Some (JObj ms)
    ∧ fields !! "source" = Some (JStr src).
Proof.
  eexists. split; [reflexivity|]. split.
  - rewrite !dom_insert_L, dom_singleton_L. set_solver.
  - repeat split; by simplify_map_eq.
Qed.

(** ** The trace of a shard *)

(** The trace of the loop is made of whole turns, one per prompt and in the
    order of the prompts, up to the prompt where it stops. *)
Lemma for_each_turns w model ms out src items :
  ∃ (k : nat) (turns : list (list event)),
    (k ≤ length items)%nat
    ∧ (for_each items (process_prompt w model ms out src)).1 = concat turns
    ∧ Forall2 (λ turn item, ∃ r, turn_shape model ms out src item.1 item.2 (turn, r))
              turns (take k items)
    ∧ ((for_each items (process_prompt w model ms out src)).2 = inr tt → k = length items).
Proof.
  induction items as [|[idx p] items IH].
  - exists 0%nat, []. repeat split; [done|]. constructor.
  - destruct IH as (k & turns & Hk & Htr & Hshape & Hend).
    rewrite for_each_cons.
    pose proof (process_prompt_shape w model ms out src idx p) as Hturn.
    destruct (process_prompt w model ms out src (idx, p)) as [tr [e|[]]].
    + exists 1%nat, [tr]. cbn. rewrite app_nil_r. repeat split; [lia| |done].
      constructor; [|constructor]. by exists (inl e).
    + rewrite bind_returns. cbn [fst snd].
      exists (S k), (tr :: turns). cbn. rewrite Htr. repeat split; [lia| |].
      * constructor; [|done]. by exists (inr tt).
      * intros H. f_equal. by apply Hend.
Qed.

Lemma turns_calls model ms out src turns items :
  Forall2 (λ turn item, ∃ r, turn_shape model ms out src item.1 item.2 (turn, r))
          turns items →
  calls (concat turns) = call_of model <$> items.
Proof.
  induction 1 as [|turn [idx p] turns items [r Hturn] _ IH]; [done|].
  cbn. rewrite calls_app, IH. by rewrite (turn_shape_calls _ _ _ _ _ _ _ _ Hturn).
Qed.

(** The calls of a shard are the calls for its first [k] prompts, in order. *)
Lemma for_each_calls w model ms out src items :
  ∃ k : nat, (k ≤ length items)%nat
    ∧ calls (for_each items (process_prompt w model ms out src)).1
      = call_of model <$> take k items
    ∧ ((for_each items (process_prompt w model ms out src)).2 = inr tt → k = length items).
Proof.
  destruct (for_each_turns w model ms out src items) as (k & turns & Hk & -> & Hshape & Hend).
  exists k. split; [done|]. split; [|done]. by eapply turns_calls.
Qed.

Lemma shard_items_calls_bound w model ms out src lo prompts m j q :
  (m, j, q) ∈ calls (for_each (enumerate_from lo prompts)
                              (process_prompt w model ms out src)).1 →
  lo ≤ j < lo + Z.of_nat (length prompts).
Proof.
  destruct (for_each_calls w model ms out src (enumerate_from lo prompts))
    as (k & Hk & -> & _).
  intros ([idx p] & [= -> -> ->] & Hin)%list_elem_of_fmap.
  apply list_elem_of_lookup in Hin as [pos Hpos].
  apply lookup_take_Some in Hpos as [Hpos Hlt].
  pose proof (lookup_lt_Some _ _ _ Hpos) as Hlen.
  rewrite enumerate_from_length in Hlen.
  apply enumerate_from_lookup in Hpos as [Hidx _]. cbn in Hidx. lia.
Qed.

Lemma turns_store_out model ms out src turns items :
  Forall2 (λ turn item, ∃ r, turn_shape model ms out src item.1 item.2 (turn, r))
          turns items →
  ∃ written, written `sublist_of` items.*2
    ∧ Forall2 (λ line p, ∃ output, line = result_record p output ms src)
              (store out (concat turns)) written.
Proof.
  induction 1 as [|turn [idx p] turns items [r Hturn] _ (written & Hsub & Hlines)].
  - exists []. split; [done|constructor].
  - change (concat (turn :: turns)) with (turn ++ concat turns).
    rewrite store_app, fmap_cons. cbn [snd].
    destruct (turn_shape_store_out _ _ _ _ _ _ _ _ Hturn) as [->|[output ->]].
    + exists written. split; [by apply sublist_cons|done].
    + exists (p :: written). split; [by apply sublist_skip|].
      constructor; [by exists output|done].
Qed.

Lemma turns_appends model ms out src turns items path line :
  Forall2 (λ turn item, ∃ r, turn_shape model ms out src item.1 item.2 (turn, r))
          turns items →
  EvAppend path line ∈ concat turns →
  ∃ p, p ∈ items.*2
    ∧ ((path = out ∧ ∃ output, line = result_record p output ms src)
       ∨ (path = out +:+ "_fails.jsonl" ∧ line = JStr p)).
Proof.
  induction 1 as [|turn [idx p] turns items [r Hturn] _ IH]; cbn.
  - by intros ?%elem_of_nil.
  - intros [Hin|Hin]%elem_of_app.
    + exists p. split; [left|]. by eapply turn_shape_appends.
    + destruct (IH Hin) as (q & Hq & Hcase). exists q. split; [by right|done].
Qed.

(** A shard is worked through in the order of its prompts: its trace is a
    sequence of whole turns for its first [k] prompts, and the lines it
    appends to the output file are records of some of these prompts, in
    their order. *)
Lemma get_responses_in_order w keys all_prompts i shard_size ms out src :
  let prompts := omap (λ d : gmap string string, d !! "prompt")
                      (py_slice all_prompts i (i + shard_size)) in
  let tr := (get_responses w keys all_prompts i shard_size ms out src).1 in
  ∃ (k : nat) (turns : list (list event)),
    tr = concat turns
    ∧ Forall2 (λ turn item, ∃ model r, builds_model w keys i model
                 ∧ turn_shape model ms out src item.1 item.2 (turn, r))
              turns (take k (shard_items all_prompts i prompts)).
Proof.
  intros prompts tr. subst tr.
  destruct (get_responses_cases w keys all_prompts i shard_size ms out src)
    as [[e ->]|(ps & model & Hps & Hm & ->)].
  - exists 0%nat, []. split; [done|]. rewrite take_0. constructor.
  - assert (prompts = ps) as -> by by eapply prompts_of_inr.
    destruct (for_each_turns w model ms out src (shard_items all_prompts i ps))
      as (k & turns & _ & Htr & Hshape & _).
    exists k, turns. split; [done|].
    eapply Forall2_impl; [exact Hshape|]. intros turn item [r Hr]. by exists model, r.
Qed.

(** What a shard appends, and where. *)
Lemma get_responses_appends w keys all_prompts i shard_size ms out src path line :
  EvAppend path line ∈ (get_responses w keys all_prompts i shard_size ms out src).1 →
  ∃ p, p ∈ omap (λ d : gmap string string, d !! "prompt")
                (py_slice all_prompts i (i + shard_size))
    ∧ ((path = out ∧ ∃ output, line = result_record p output ms src)
       ∨ (path = out +:+ "_fails.jsonl" ∧ line = JStr p)).
Proof.
  destruct (get_responses_cases w keys all_prompts i shard_size ms out src)
    as [[e ->]|(ps & model & Hps & Hm & ->)].
  - by intros ?%elem_of_nil.
  - rewrite (prompts_of_inr _ _ _ Hps).
    destruct (for_each_turns w model ms out src (shard_items all_prompts i ps))
      as (k & turns & _ & -> & Hshape & _).
    intros Hin. destruct (turns_appends _ _ _ _ _ _ _ _ Hshape Hin) as (p & Hp & Hcase).
    exists p. split; [|done].
    rewrite fmap_take in Hp. apply subseteq_take in Hp.
    unfold shard_items in Hp. by rewrite enumerate_from_snd in Hp.
Qed.

(** A line of the output file is a record. *)
Lemma get_responses_output_lines w keys all_prompts i shard_size ms out src line :
  line ∈ store out (get_responses w keys all_prompts i shard_size ms out src).1 →
  ∃ p output, line = result_record p output ms src.
Proof.
  intros Hin. apply list_elem_of_omap in Hin as (ev & Hev & Hline).
  destruct ev as [| path line' |]; try done.
  case_decide as Hpath; [|done]. injection Hline as ->. subst path.
  destruct (get_responses_appends _ _ _ _ _ _ _ _ _ _ Hev)
    as (p & _ & [[_ [output ->]]|[Hpath _]]).
  - by exists p, output.
  - symmetry in Hpath. by apply fails_path_ne in Hpath.
Qed.

(** The calls of a shard are those for its first prompts, one each and in
    order, all with the model the shard has built. *)
Lemma get_responses_calls w keys all_prompts i shard_size ms out src :
  ∃ (k : nat) (model : ModelConfig),
    calls (get_responses w keys all_prompts i shard_size ms out src).1
    = call_of model <$>
        take k (shard_items all_prompts i
                  (omap (λ d : gmap string string, d !! "prompt")
                        (py_slice all_prompts i (i + shard_size))))
    ∧ (k = 0%nat ∨ builds_model w keys i model).
Proof.
  destruct (get_responses_cases w keys all_prompts i shard_size ms out src)
    as [[e ->]|(ps & model & Hps & Hm & ->)].
  - exists 0%nat, {| model_name := ""; openai_api_key := None; model_kwargs := ∅ |}.
    rewrite take_0. split; [done|by left].
  - rewrite (prompts_of_inr _ _ _ Hps).
    destruct (for_each_calls w model ms out src (shard_items all_prompts i ps))
      as (k & _ & Hcalls & _).
    exists k, model. split; [done|by right].
Qed.

(** ** The pool *)

Lemma events_of_app k tl1 tl2 : events_of k (tl1 ++ tl2) = events_of k tl1 ++ events_of k tl2.
Proof. apply omap_app. Qed.

Lemma events_of_cons k j ev tl :
  events_of k ((j, ev) :: tl)
  = if decide (j = k) then ev :: events_of k tl else events_of k tl.
Proof. unfold events_of. cbn. by case_decide. Qed.

Lemma events_of_tagged (k j : nat) (tr : list event) :
  events_of k ((λ ev, (j, ev)) <$> tr) = if decide (j = k) then tr else [].
Proof.
  unfold events_of. induction tr as [|ev tr IH]; [by case_decide|].
  cbn. rewrite IH. by case_decide.
Qed.

Lemma events_of_drain (k j : nat) (rest : list (list event)) :
  events_of k (drain j rest)
  = if decide (j ≤ k)%nat then default [] (rest !! (k - j)%nat) else [].
Proof.
  revert j. induction rest as [|tr rest IH]; intros j.
  - cbn. by case_decide.
  - cbn [drain]. rewrite events_of_app, events_of_tagged, IH.
    repeat case_decide; try lia.
    + subst. rewrite Nat.sub_diag. cbn. by rewrite app_nil_r.
    + replace (k - j)%nat with (S (k - S j)) by lia. done.
    + done.
Qed.

(** The events of a unit come out of the pool complete and in their order,
    whatever the schedule. *)
Lemma events_of_interleave (max_workers : Z) (turns : list nat)
    (rest : list (list event)) (k : nat) :
  events_of k (interleave max_workers turns rest) = default [] (rest !! k).
Proof.
  revert rest. induction turns as [|j turns IH]; intros rest.
  - cbn [interleave]. rewrite events_of_drain, Nat.sub_0_r.
    case_decide; [done|lia].
  - cbn [interleave]. destruct (rest !! j) as [[|ev tr]|] eqn:Hj; [apply IH| |apply IH].
    destruct (may_run max_workers j rest); [|apply IH].
    rewrite events_of_cons, IH. pose proof (lookup_lt_Some _ _ _ Hj) as Hlt.
    case_decide as Hjk.
    + subst j. rewrite list_lookup_insert_eq by done. by rewrite Hj.
    + by rewrite list_lookup_insert_ne.
Qed.

Lemma drain_insert (j k : nat) (rest : list (list event)) ev tr :
  rest !! k = Some (ev :: tr) →
  drain j rest ≡ₚ ((j + k)%nat, ev) :: drain j (<[k := tr]> rest).
Proof.
  revert j k. induction rest as [|tr0 rest IH]; intros j k; [done|].
  destruct k as [|k]; cbn.
  - intros [= ->]. by rewrite Nat.add_0_r.
  - intros Hk. rewrite (IH (S j) k Hk).
    replace (S j + k)%nat with (j + S k)%nat by lia.
    by rewrite Permutation_middle.
Qed.

(** Nothing is lost and nothing is added: the timeline holds the events of
    the units and no other. *)
Lemma interleave_perm (max_workers : Z) (turns : list nat) (rest : list (list event)) :
  interleave max_workers turns rest ≡ₚ drain 0 rest.
Proof.
  revert rest. induction turns as [|j turns IH]; intros rest; [done|].
  cbn [interleave]. destruct (rest !! j) as [[|ev tr]|] eqn:Hj; [apply IH| |apply IH].
  destruct (may_run max_workers j rest); [|apply IH].
  rewrite IH. by rewrite (drain_insert 0 j rest ev tr Hj).
Qed.

Lemma drain_silent (j : nat) (rest : list (list event)) :
  Forall (λ tr, tr = []) rest → drain j rest = [].
Proof.
  intros Hall. revert j. induction Hall as [|tr rest -> _ IH]; intros j; [done|].
  cbn. apply IH.
Qed.

Lemma interleave_silent (max_workers : Z) (turns : list nat) (rest : list (list event)) :
  Forall (λ tr, tr = []) rest → interleave max_workers turns rest = [].
Proof.
  intros Hall. apply Permutation_nil_r.
  by rewrite interleave_perm, drain_silent.
Qed.

Lemma as_completed_perm (completion : list nat) (n : nat) :
  as_completed completion n ≡ₚ seq 0 n.
Proof.
  unfold as_completed.
  set (first := remove_dups (filter (λ k, (k < n)%nat) completion)).
  assert (NoDup first) as Hnd by apply NoDup_remove_dups.
  apply NoDup_Permutation.
  - apply NoDup_app. split; [done|]. split.
    + intros k Hk Hk'. by apply list_elem_of_difference in Hk' as [_ ?].
    + apply NoDup_list_difference, NoDup_seq.
  - apply NoDup_seq.
  - intros k. rewrite elem_of_app, list_elem_of_difference.
    split.
    + intros [Hk|[Hk _]]; [|done].
      apply elem_of_remove_dups, list_elem_of_filter in Hk as [Hk _].
      apply elem_of_seq. lia.
    + intros Hk. destruct (decide (k ∈ first)); [by left|by right].
Qed.

(** ** The collection loop *)

Lemma collect_all (results : list (exn + unit)) (count : Z) (logged : list log_entry) :
  Forall survives results →
  collect results count logged
  = (count + Z.of_nat (length results), logged ++ omap logged_error results, inr tt).
Proof.
  intros Hall. revert count logged.
  induction Hall as [|[e|[]] results Hr _ IH]; intros count logged.
  - cbn. by rewrite Z.add_0_r, app_nil_r.
  - cbn in Hr. cbn [collect]. rewrite Hr, IH. cbn [omap list_omap logged_error length].
    rewrite <- app_assoc. do 2 f_equal. lia.
  - cbn [collect]. rewrite IH. cbn [omap list_omap logged_error length].
    do 2 f_equal. lia.
Qed.

Lemma collect_count (results : list (exn + unit)) (count : Z) (logged : list log_entry) :
  let '(count', _, res) := collect results count logged in
  count ≤ count' ≤ count + Z.of_nat (length results)
  ∧ (res = inr tt → count' = count + Z.of_nat (length results)).
Proof.
  revert count logged. induction results as [|[e|[]] results IH]; intros count logged.
  - cbn. lia.
  - cbn [collect]. destruct (is_Exception e).
    + specialize (IH (count + 1) (logged ++ [LogException e])).
      destruct (collect _ _ _) as [[count' lg] res].
      cbv beta iota zeta in IH |- *. cbn [length].
      destruct IH as [? IH]. split; [lia|]. intros ->. specialize (IH eq_refl). lia.
    + cbn [length]. split; [lia|done].
  - cbn [collect]. specialize (IH (count + 1) logged).
    destruct (collect _ _ _) as [[count' lg] res].
    cbv beta iota zeta in IH |- *. cbn [length].
    destruct IH as [? IH]. split; [lia|]. intros ->. specialize (IH eq_refl). lia.
Qed.

Lemma unrecognized_is_Exception (e : exn) : recognized e = false → is_Exception e = true.
Proof. by destruct e. Qed.

Lemma logged_errors_length (results : list (exn + unit)) :
  Forall (λ r, ∃ e, r = inl e) results →
  length (omap logged_error results) = length results.
Proof.
  induction 1 as [|r results [e ->] _ IH]; [done|]. cbn. by rewrite IH.
Qed.

(** The collection loop sees the result of every future once. *)
Lemma results_of_futures (futures : list (M unit)) (completion : list nat) :
  omap (λ k, snd <$> futures !! k) (as_completed completion (length futures))
  ≡ₚ snd <$> futures.
Proof.
  rewrite as_completed_perm.
  match goal with |- ?l ≡ₚ ?k => assert (l = k) as ->; [|done] end.
  replace (length futures) with (length (snd <$> futures)) by apply length_fmap.
  apply omap_seq_lookup. intros k _. by rewrite list_lookup_fmap.
Qed.

Lemma results_length (futures : list (M unit)) (completion : list nat) :
  length (omap (λ k, snd <$> futures !! k) (as_completed completion (length futures)))
  = length futures.
Proof. by rewrite results_of_futures, length_fmap. Qed.

(** ** The dispatcher *)

Lemma collector_runs w keys all_prompts num_workers S out src sched :
  0 < S → 0 < num_workers →
  let N := Z.of_nat (length all_prompts) in
  let futures := (λ i, get_responses w keys all_prompts i S default_model_settings out src)
                   <$> shard_starts N S in
  let results := omap (λ k, snd <$> futures !! k)
                      (as_completed (completion sched) (length futures)) in
  collector w keys all_prompts num_workers S out src sched
  = {| submitted := shard_starts N S;
       timeline := interleave num_workers (turns sched) (fst <$> futures);
       log := (collect results 0 [LogInfo "Generating Pairs"]).1.2;
       progress := Some {| total := N / S;
                           n := (collect results 0 [LogInfo "Generating Pairs"]).1.1 |};
       outcome := (collect results 0 [LogInfo "Generating Pairs"]).2 |}.
Proof.
  intros HS Hw N futures results. unfold collector, floordiv.
  rewrite bool_decide_eq_false_2 by lia.
  rewrite bool_decide_eq_false_2 by lia.
  rewrite py_range_shards by lia. fold N. fold (shard_starts N S). fold futures.
  fold results. by destruct (collect results 0 _) as [[count logged] res].
Qed.

Lemma collector_submitted w keys all_prompts num_workers S out src sched :
  0 < S → 0 < num_workers →
  submitted (collector w keys all_prompts num_workers S out src sched)
  = shard_starts (Z.of_nat (length all_prompts)) S.
Proof. intros HS Hw. by rewrite collector_runs. Qed.

Lemma collector_total w keys all_prompts num_workers S out src sched :
  S ≠ 0 →
  total <$> progress (collector w keys all_prompts num_workers S out src sched)
  = Some (Z.of_nat (length all_prompts) / S).
Proof.
  intros HS. unfold collector, floordiv. rewrite bool_decide_eq_false_2 by done.
  case_bool_decide; [done|].
  destruct (py_range _ _ _); [done|].
  by destruct (collect _ _ _) as [[count logged] res].
Qed.

(** The events of the unit of work number [k]. *)
Lemma collector_events_of w keys all_prompts num_workers S out src sched k i :
  0 < S → 0 < num_workers →
  submitted (collector w keys all_prompts num_workers S out src sched) !! k = Some i →
  events_of k (timeline (collector w keys all_prompts num_workers S out src sched))
  = (get_responses w keys all_prompts i S default_model_settings out src).1.
Proof.
  intros HS Hw. rewrite collector_runs by done. cbn [submitted timeline].
  intros Hk. rewrite events_of_interleave, !list_lookup_fmap, Hk. done.
Qed.

(** ** The shard of a unit of work *)

Lemma enumerate_from_fst {A} (lo : Z) (l : list A) :
  (enumerate_from lo l).*1 = (λ t : nat, lo + Z.of_nat t) <$> seq 0 (length l).
Proof.
  revert lo. induction l as [|x l IH]; intros lo; [done|].
  cbn [enumerate_from length seq fmap list_fmap fst]. f_equal; [lia|].
  rewrite IH, <- fmap_S_seq, <- list_fmap_compose.
  apply list_fmap_ext. intros _ t _. cbn. lia.
Qed.

Lemma prompts_of_Forall2 ds ps :
  prompts_of ds = ([], inr ps) ↔ Forall2 (λ d p, d !! "prompt" = Some p) ds ps.
Proof.
  split.
  - revert ps. induction ds as [|d ds IH]; intros ps.
    + intros [= <-]. constructor.
    + cbn [prompts_of]. unfold get_prompt.
      destruct (d !! "prompt") as [p|] eqn:Hd; [|done].
      rewrite (bind_ret_l p).
      destruct (prompts_of ds) as [tr [e|ps']] eqn:Hds; [done|].
      pose proof (prompts_of_silent ds) as Hsilent. rewrite Hds in Hsilent.
      cbn in Hsilent. subst tr. rewrite (bind_ret_l ps'). intros [= <-].
      constructor; [done|]. by apply IH.
  - induction 1 as [|d p ds ps Hd _ IH]; [done|].
    cbn [prompts_of]. unfold get_prompt. rewrite Hd, (bind_ret_l p), IH.
    by rewrite (bind_ret_l ps).
Qed.

Lemma prompts_of_missing ds d :
  d ∈ ds → d !! "prompt" = None → prompts_of ds = ([], inl KeyError).
Proof.
  intros Hin Hd. induction Hin as [d ds|d d' ds Hin IH].
  - cbn [prompts_of]. unfold get_prompt. by rewrite Hd.
  - cbn [prompts_of]. unfold get_prompt. destruct (d' !! "prompt") as [p|]; [|done].
    rewrite (bind_ret_l p). by rewrite (IH Hd).
Qed.

(** A unit of work that starts inside the input is the loop over the prompts
    of its shard, each at its position in the input. *)
Lemma get_responses_of_shard w keys all_prompts i S ms out src :
  0 ≤ i ≤ Z.of_nat (length all_prompts) →
  get_responses w keys all_prompts i S ms out src
  = (prompts ← prompts_of (py_slice all_prompts i (i + S));
     model ← shard_model w keys i;
     for_each (enumerate_from i prompts) (process_prompt w model ms out src)).
Proof.
  intros Hi. rewrite get_responses_unfold. unfold shard_items.
  assert (slice_bound (Z.of_nat (length all_prompts)) i = i) as ->; [|done].
  unfold slice_bound. rewrite bool_decide_eq_false_2 by lia. lia.
Qed.

(** The calls of the unit of work that starts at [i]: the positions
    [i, i+1, ..] of the first prompts of its shard, of all of them when the
    unit returns, each with the prompt of the record at that position. *)
Lemma unit_calls_in_shard w keys all_prompts i S ms out src :
  0 ≤ i ≤ Z.of_nat (length all_prompts) → 0 < S →
  let run := get_responses w keys all_prompts i S ms out src in
  let shard := py_slice all_prompts i (i + S) in
  (∃ j : nat, (calls run.1).*1.*2 = (λ t : nat, i + Z.of_nat t) <$> seq 0 j
              ∧ (j ≤ length shard)%nat
              ∧ (run.2 = inr tt → j = length shard))
  ∧ ∀ m idx p, (m, idx, p) ∈ calls run.1 →
      i ≤ idx < i + Z.of_nat (length shard)
      ∧ ∃ d, all_prompts !! Z.to_nat idx = Some d ∧ d !! "prompt" = Some p.
Proof.
  intros Hi HS run shard. subst run shard.
  destruct (get_responses_cases w keys all_prompts i S ms out src)
    as [[e ->]|(ps & model & Hps & Hm & ->)].
  { split; [exists 0%nat; split; [done|]; split; [cbn; lia|done]|].
    by intros m idx p ?%elem_of_nil. }
  apply prompts_of_Forall2 in Hps.
  destruct (for_each_calls w model ms out src (shard_items all_prompts i ps))
    as (j & Hj & -> & Hret).
  unfold shard_items in *. rewrite enumerate_from_length in Hj, Hret.
  assert (slice_bound (Z.of_nat (length all_prompts)) i = i) as Hlo.
  { unfold slice_bound. rewrite bool_decide_eq_false_2 by lia. lia. }
  rewrite Hlo in *.
  pose proof (Forall2_length _ _ _ Hps) as Hlen. rewrite Hlen.
  rewrite py_slice_take_drop in Hps by lia.
  split.
  - exists j. split; [|done].
    rewrite <- !list_fmap_compose.
    assert (snd ∘ fst ∘ call_of model = @fst Z string) as -> by done.
    rewrite fmap_take, enumerate_from_fst, <- fmap_take, take_seq.
    by replace (j `min` length ps)%nat with j by lia.
  - intros m idx p Hin.
    apply list_elem_of_fmap in Hin as ([idx' p'] & [= -> -> ->] & Hin).
    apply elem_of_take in Hin as (t & Hlook & Ht).
    apply enumerate_from_lookup in Hlook as [Hidx Hp]. cbn in Hidx, Hp. subst idx'.
    pose proof (lookup_lt_Some _ _ _ Hp) as Hlt.
    split; [lia|].
    destruct (Forall2_lookup_r _ _ _ _ _ Hps Hp) as (d & Hd & Hprompt).
    exists d. split; [|done].
    apply lookup_take_Some in Hd as [Hd _]. rewrite lookup_drop in Hd.
    by replace (Z.to_nat (i + Z.of_nat t)) with (Z.to_nat i + t)%nat by lia.
Qed.

(** ** The command line *)

Lemma read_prompts_silent lines : (read_prompts lines).1 = [].
Proof.
  induction lines as [|[e|datum] lines IH]; [done..|].
  cbn [read_prompts next_datum]. rewrite (bind_ret_l datum). unfold get_prompt.
  destruct (datum !! "prompt") as [p|]; [|done]. rewrite (bind_ret_l p).
  destruct (read_prompts lines) as [tr [e|all_data]]; cbn in IH; subst tr; [done|].
  by rewrite (bind_ret_l all_data).
Qed.

(** Reading the prompts line by line either raises or gives what reading
    the whole file first and taking the prompts afterwards gives. *)
Lemma read_prompts_cases lines :
  (∃ e, read_prompts lines = ([], inl e))
  ∨ (∃ data prompts,
       records_of lines = inr data
       ∧ prompts_of data = ([], inr prompts)
       ∧ read_prompts lines
         = ([], inr ((λ prompt : string, {[ "prompt" := prompt ]}) <$> prompts))).
Proof.
  induction lines as [|[e|datum] lines IH].
  - right. by exists [], [].
  - left. by exists e.
  - cbn [read_prompts next_datum records_of]. rewrite (bind_ret_l datum).
    destruct (datum !! "prompt") as [p|] eqn:Hp.
    2:{ left. exists KeyError. unfold get_prompt. by rewrite Hp. }
    assert (get_prompt datum = mret p) as Hget by (unfold get_prompt; by rewrite Hp).
    rewrite Hget, (bind_ret_l p).
    destruct IH as [[e ->]|(data & prompts & -> & Hprompts & ->)].
    + left. by exists e.
    + right. exists (datum :: data), (p :: prompts). split; [done|].
      split; [|done].
      cbn [prompts_of]. rewrite Hget, (bind_ret_l p), Hprompts.
      by rewrite (bind_ret_l prompts).
Qed.

Lemma read_prompts_records lines data prompts :
  records_of lines = inr data → prompts_of data = ([], inr prompts) →
  read_prompts lines
  = ([], inr ((λ prompt : string, {[ "prompt" := prompt ]}) <$> prompts)).
Proof.
  intros Hdata Hprompts. apply prompts_of_Forall2 in Hprompts.
  revert lines Hdata. induction Hprompts as [|d p data prompts Hp _ IH]; intros lines.
  - destruct lines as [|[e|datum] lines]; [done..|].
    cbn [records_of]. by destruct (records_of lines).
  - destruct lines as [|[e|datum] lines]; [done..|]. cbn [records_of].
    destruct (records_of lines) as [e|data'] eqn:Hrec; [done|]. intros [= -> ->].
    cbn [read_prompts next_datum]. rewrite (bind_ret_l d). unfold get_prompt.
    by rewrite Hp, (bind_ret_l p), (IH lines Hrec), bind_returns.
Qed.

(** When the input can be read to its end and every record has a prompt,
    the program is the dispatcher on the records reduced to their prompts. *)
Lemma main_runs w args environ sched data prompts :
  read_lines w (input_file args) = inr data →
  prompts_of data = ([], inr prompts) →
  main w args environ sched
  = collector w [py_or (arg_openai_api_key args) (environ !! "OPENAI_API_KEY")]
      ((λ prompt, {[ "prompt" := prompt ]}) <$> prompts) 10 200 (output_file args) ""
      sched.
Proof.
  unfold read_lines, main. destruct (reader w (input_file args)) as [e|lines]; [done|].
  intros Hdata Hprompts. by rewrite (read_prompts_records _ _ _ Hdata Hprompts).
Qed.

(** Otherwise it stops before the dispatcher. *)
Lemma main_cases w args environ sched :
  (∃ e, main w args environ sched
        = {| submitted := []; timeline := []; log := []; progress := None;
             outcome := inl e |})
  ∨ (∃ data prompts,
       read_lines w (input_file args) = inr data
       ∧ prompts_of data = ([], inr prompts)).
Proof.
  unfold read_lines, main.
  destruct (reader w (input_file args)) as [e|lines]; [left; by exists e|].
  destruct (read_prompts_cases lines) as [[e ->]|(data & prompts & Hd & Hp & _)].
  - left. by exists e.
  - right. by exists data, prompts.
Qed.
(** * The claims *)

(** ** C1: what happens on a recognized failure *)

(** C1 (amended).  When [model(prompt)] has returned and building or writing
    the record raises [KeyboardInterrupt], [ValueError] or [IndexError], and
    the failure file can be appended to, then the turn of that prompt
    consists of the call, the warning and exactly one line appended to the
    failure file, the bare prompt; nothing is appended to the output file,
    and the loop goes on with the next prompt. *)
Theorem recognized_write_failure_is_recorded
    w keys all_prompts i shard_size ms out src model pre p post output e :
  let idx := slice_bound (Z.of_nat (length all_prompts)) i + Z.of_nat (length pre) in
  let turn := [EvCall model idx p; EvWarn skip_warning;
               EvAppend (out +:+ "_fails.jsonl") (JStr p)] in
  holds_prompts all_prompts i shard_size (pre ++ p :: post) →
  builds_model w keys i model →
  model_call w model idx p = inr output →
  jsonlines_open w out idx = None →
  writer_write w out idx (result_record p output ms src) = Some e →
  recognized e = true →
  jsonlines_open w (out +:+ "_fails.jsonl") idx = None →
  writer_write w (out +:+ "_fails.jsonl") idx (JStr p) = None →
  get_responses w keys all_prompts i shard_size ms out src
  = (for_each (shard_items all_prompts i pre) (process_prompt w model ms out src);;
     (turn, inr tt);;
     for_each (enumerate_from (idx + 1) post) (process_prompt w model ms out src))
  ∧ store (out +:+ "_fails.jsonl") turn = [JStr p]
  ∧ store out turn = [].
Proof.
  intros idx turn Hp Hm Hc Ho Hw He Hfo Hfw. split; [|split].
  - rewrite (get_responses_split _ _ _ _ _ _ _ _ _ _ _ _ Hp Hm).
    fold idx. by rewrite (process_prompt_recorded _ _ _ _ _ _ _ _ _ Hc Ho Hw He Hfo Hfw).
  - unfold turn, store. cbn. by rewrite decide_True.
  - unfold turn, store. cbn. rewrite decide_False; [done|apply fails_path_ne].
Qed.

Lemma recognized_write_failure_is_recorded_witness :
  let body := process_prompt interrupted_world (gpt "k") default_model_settings
                "out.jsonl" "" in
  let turn := [EvCall (gpt "k") 0 "x"; EvWarn skip_warning;
               EvAppend "out.jsonl_fails.jsonl" (JStr "x")] in
  get_responses interrupted_world [Some "k"] xy 0 2 default_model_settings "out.jsonl" ""
  = (for_each (shard_items xy 0 []) body;; (turn, inr tt);;
     for_each (enumerate_from 1 ["y"]) body)
  ∧ store "out.jsonl_fails.jsonl" turn = [JStr "x"]
  ∧ store "out.jsonl" turn = [].
Proof.
  exact (recognized_write_failure_is_recorded interrupted_world [Some "k"] xy 0 2
           default_model_settings "out.jsonl" "" (gpt "k") [] "x" ["y"] "re:x" KeyboardInterrupt
           eq_refl eq_refl eq_refl eq_refl eq_refl eq_refl eq_refl eq_refl).
Defined.

(** C1 as it is stated fails.  The answer to ["x"] is malformed, so that
    [model("x")] raises [ValueError], a class of the recognized set; the call
    is made outside the [try], the exception leaves [get_responses], no line
    is appended to the failure file and the next prompt ["y"] is never
    called. *)
Lemma malformed_response_is_not_recorded :
  let run := get_responses malformed_world [Some "k"] xy 0 2 default_model_settings
               "out.jsonl" "" in
  model_call malformed_world (gpt "k") 0 "x" = inl ValueError
  ∧ recognized ValueError = true
  ∧ run = ([EvCall (gpt "k") 0 "x"], inl ValueError)
  ∧ store "out.jsonl_fails.jsonl" run.1 ≠ [JStr "x"]
  ∧ ¬ ∃ model idx, (model, idx, "y") ∈ calls run.1.
Proof.
  intros run.
  assert (run = ([EvCall (gpt "k") 0 "x"], inl ValueError)) as -> by reflexivity.
  repeat split.
  - discriminate.
  - intros (model & idx & Hin). cbn in Hin.
    apply list_elem_of_singleton in Hin. discriminate Hin.
Qed.

(** ** C2: the shards *)

(** C2.  For a positive shard size [S] (and a pool that has a worker) the
    dispatcher submits [ceil(N/S)] units of work; unit [k] is the call of
    [get_responses] with [i = k*S], and its shard
    [all_prompts[k*S : k*S + S]] is made of the prompts at the
    positions from [k*S] up to, not including, [min((k+1)*S, N)]; every
    position below [N] lies in exactly one shard, and the shards put one
    after the other are the input.  The shard is what the unit of work
    works on: the unit is the loop of [get_responses] over the prompts of
    that slice, it calls the API for positions of its shard only, each time
    with the prompt of the record there, and when it returns it has called
    it for every position of its shard, once and in order. *)
Theorem shards_partition_the_input w keys all_prompts num_workers S out src sched :
  0 < S → 0 < num_workers →
  let N := Z.of_nat (length all_prompts) in
  let r := collector w keys all_prompts num_workers S out src sched in
  let shard (i : Z) := py_slice all_prompts i (i + S) in
  let start (k : nat) := Z.of_nat k * S in
  let stop (k : nat) := Z.min ((Z.of_nat k + 1) * S) N in
  let count := length (submitted r) in
  let unit (k : nat) :=
    get_responses w keys all_prompts (start k) S default_model_settings out src in
  Z.of_nat count = ceil_div N S
  ∧ N ≤ Z.of_nat count * S < N + S
  ∧ (∀ k : nat, (k < count)%nat →
       submitted r !! k = Some (start k)
       ∧ events_of k (timeline r)
         = (get_responses w keys all_prompts (start k) S default_model_settings
              out src).1
       ∧ Z.of_nat (length (shard (start k))) = stop k - start k
       ∧ ∀ j : nat, (j < length (shard (start k)))%nat →
           shard (start k) !! j = all_prompts !! (Z.to_nat (start k) + j)%nat)
  ∧ (∀ pos : Z, 0 ≤ pos < N →
       ∃ k : nat, (k < count)%nat
         ∧ start k ≤ pos < stop k
         ∧ ∀ k' : nat, start k' ≤ pos < stop k' → k' = k)
  ∧ concat (shard <$> submitted r) = all_prompts
  ∧ (∀ k : nat, (k < count)%nat →
       unit k
       = (prompts ← prompts_of (shard (start k));
          model ← shard_model w keys (start k);
          for_each (enumerate_from (start k) prompts)
                   (process_prompt w model default_model_settings out src))
       ∧ (∀ m pos p, (m, pos, p) ∈ calls (events_of k (timeline r)) →
            start k ≤ pos < stop k
            ∧ ∃ d, all_prompts !! Z.to_nat pos = Some d ∧ d !! "prompt" = Some p)
       ∧ ((unit k).2 = inr tt →
            (calls (events_of k (timeline r))).*1.*2
            = (λ j : nat, start k + Z.of_nat j)
                <$> seq 0 (length (shard (start k))))).
Proof.
  intros HS Hw N r shard start stop count unit. subst count start stop unit. cbv beta.
  pose proof (collector_events_of w keys all_prompts num_workers S out src sched)
    as Hevents. fold r in Hevents.
  assert (submitted r = shard_starts N S) as Hsub by by apply collector_submitted.
  rewrite Hsub in *. clearbody r.
  assert (0 ≤ N) as HN by (unfold N; lia).
  pose proof (shard_starts_length N S HS HN) as Hlen.
  pose proof (ceil_div_bounds N S HS) as Hceil.
  split; [done|]. split; [by rewrite Hlen|]. split; [|split; [|split]].
  - intros k Hk. split; [by apply shard_starts_lookup|].
    split; [apply Hevents; [done..|by apply shard_starts_lookup]|].
    pose proof (shard_starts_below N S k HS HN Hk) as Hbelow.
    split; [by apply shard_length|]. intros j. by apply shard_lookup.
  - intros pos Hpos. exists (Z.to_nat (pos / S)).
    pose proof (Z.div_mod pos S ltac:(lia)) as Hdm.
    pose proof (Z.mod_pos_bound pos S HS) as Hmod.
    assert (0 ≤ pos / S) by (apply Z.div_pos; lia).
    rewrite Z2Nat.id by done. split; [nia|]. split; [nia|].
    intros k' Hk'. apply Nat2Z.inj. rewrite Z2Nat.id by done. nia.
  - pose proof (py_range_shards N S HS) as Hrange. unfold py_range in Hrange.
    rewrite bool_decide_eq_false_2, bool_decide_eq_true_2 in Hrange by lia.
    injection Hrange as Hrange. unfold shard_starts, shard. rewrite <- Hrange.
    unfold N. rewrite shards_concat by lia. done.
  - intros k Hk.
    pose proof (shard_starts_below N S k HS HN Hk) as Hbelow.
    assert (0 ≤ Z.of_nat k * S ≤ Z.of_nat (length all_prompts)) as Hstart
      by (fold N; nia).
    rewrite (Hevents k (Z.of_nat k * S) HS Hw) by by apply shard_starts_lookup.
    pose proof (shard_length all_prompts S k HS Hbelow) as Hshard. fold N in Hshard.
    destruct (unit_calls_in_shard w keys all_prompts (Z.of_nat k * S) S
                default_model_settings out src Hstart HS)
      as [(j & Hpos & _ & Hret) Hcalls].
    split; [by apply get_responses_of_shard|]. split.
    + intros m pos p Hin. destruct (Hcalls m pos p Hin) as [Hrange Hrec].
      split; [|done]. unfold shard. lia.
    + intros Hrun. rewrite Hpos. by rewrite (Hret Hrun).
Qed.

Lemma shards_partition_the_input_witness :
  let r := collector calm_world [Some "k"] abc 2 2 "out.jsonl" "" in_turn in
  let shard (i : Z) := py_slice abc i (i + 2) in
  let start (k : nat) := Z.of_nat k * 2 in
  let stop (k : nat) := Z.min ((Z.of_nat k + 1) * 2) 3 in
  let count := length (submitted r) in
  let unit (k : nat) :=
    get_responses calm_world [Some "k"] abc (start k) 2 default_model_settings
      "out.jsonl" "" in
  Z.of_nat count = ceil_div 3 2
  ∧ 3 ≤ Z.of_nat count * 2 < 3 + 2
  ∧ (∀ k : nat, (k < count)%nat →
       submitted r !! k = Some (start k)
       ∧ events_of k (timeline r)
         = (get_responses calm_world [Some "k"] abc (start k) 2 default_model_settings
              "out.jsonl" "").1
       ∧ Z.of_nat (length (shard (start k))) = stop k - start k
       ∧ ∀ j : nat, (j < length (shard (start k)))%nat →
           shard (start k) !! j = abc !! (Z.to_nat (start k) + j)%nat)
  ∧ (∀ pos : Z, 0 ≤ pos < 3 →
       ∃ k : nat, (k < count)%nat
         ∧ start k ≤ pos < stop k
         ∧ ∀ k' : nat, start k' ≤ pos < stop k' → k' = k)
  ∧ concat (shard <$> submitted r) = abc
  ∧ (∀ k : nat, (k < count)%nat →
       unit k
       = (prompts ← prompts_of (shard (start k));
          model ← shard_model calm_world [Some "k"] (start k);
          for_each (enumerate_from (start k) prompts)
                   (process_prompt calm_world model default_model_settings
                      "out.jsonl" ""))
       ∧ (∀ m pos p, (m, pos, p) ∈ calls (events_of k (timeline r)) →
            start k ≤ pos < stop k
            ∧ ∃ d, abc !! Z.to_nat pos = Some d ∧ d !! "prompt" = Some p)
       ∧ ((unit k).2 = inr tt →
            (calls (events_of k (timeline r))).*1.*2
            = (λ j : nat, start k + Z.of_nat j)
                <$> seq 0 (length (shard (start k))))).
Proof.
  apply (shards_partition_the_input calm_world [Some "k"] abc 2 2 "out.jsonl" "" in_turn);
    lia.
Defined.

(** ** C3: no credential *)

(** C3 (amended).  Without a key on the command line and in the
    environment the scraper is built with an absent key and the run goes on:
    the input is read and every shard is submitted.  When the constructor of
    the model refuses a configuration without a key, every unit of work
    raises before its loop: no call is made and no file is touched, the
    error of every unit is logged, and the run ends normally. *)
Theorem missing_key_fails_inside_every_shard w args environ sched data prompts :
  py_or (arg_openai_api_key args) (environ !! "OPENAI_API_KEY") = None →
  read_lines w (input_file args) = inr data →
  prompts_of data = ([], inr prompts) →
  (∀ cfg, openai_api_key cfg = None →
          ∃ e, openai_chat w cfg = Some e ∧ is_Exception e = true) →
  let r := main w args environ sched in
  Z.of_nat (length (submitted r)) = ceil_div (Z.of_nat (length prompts)) 200
  ∧ timeline r = []
  ∧ (∀ path before, file_after before path r = before)
  ∧ length (log r) = S (length (submitted r))
  ∧ outcome r = inr tt.
Proof.
  intros Hnone Hread Hprompts Hkey r. subst r. unfold file_after.
  rewrite (main_runs _ _ _ _ _ _ Hread Hprompts), Hnone.
  rewrite collector_runs by lia.
  cbn [submitted timeline log progress outcome].
  rewrite length_fmap.
  set (all_data := (λ prompt : string, {[ "prompt" := prompt ]}) <$> prompts).
  set (starts := shard_starts (Z.of_nat (length prompts)) 200).
  set (futures := (λ i, get_responses w [None] all_data i 200 default_model_settings
                          (output_file args) "") <$> starts).
  assert (Forall (λ f : M unit, ∃ e, f = ([], inl e) ∧ is_Exception e = true) futures)
    as Hfutures.
  { apply Forall_fmap, Forall_forall. intros i _. by apply get_responses_without_key. }
  assert (interleave 10 (turns sched) (fst <$> futures) = []) as ->.
  { apply interleave_silent, Forall_fmap. eapply Forall_impl; [exact Hfutures|].
    by intros f (e & -> & _). }
  pose proof (results_of_futures futures (completion sched)) as Hperm.
  set (results := omap (λ k, snd <$> futures !! k) _) in *.
  assert (Forall (λ r : exn + unit, ∃ e, r = inl e ∧ is_Exception e = true) results)
    as Hresults.
  { rewrite Hperm. apply Forall_fmap. eapply Forall_impl; [exact Hfutures|].
    intros f (e & -> & He). by exists e. }
  rewrite (collect_all results).
  2:{ eapply Forall_impl; [exact Hresults|]. by intros res (e & -> & He). }
  cbn [fst snd].
  split; [|split; [|split; [|split]]].
  - apply shard_starts_length; lia.
  - done.
  - intros path before. cbn. by rewrite app_nil_r.
  - rewrite length_app, logged_errors_length.
    + cbn [length]. f_equal. unfold results. rewrite results_length.
      unfold futures. by rewrite length_fmap.
    + eapply Forall_impl; [exact Hresults|]. intros res (e & -> & _). by exists e.
  - done.
Qed.

Lemma missing_key_fails_inside_every_shard_witness :
  let r := main calm_world no_key ∅ in_turn in
  Z.of_nat (length (submitted r)) = ceil_div (Z.of_nat (length ["a"; "b"; "c"])) 200
  ∧ timeline r = []
  ∧ (∀ path before, file_after before path r = before)
  ∧ length (log r) = S (length (submitted r))
  ∧ outcome r = inr tt.
Proof.
  apply (missing_key_fails_inside_every_shard calm_world no_key ∅ in_turn abc
           ["a"; "b"; "c"]); [reflexivity|reflexivity|reflexivity|].
  intros cfg Hcfg. exists ValueError. cbn. by rewrite Hcfg.
Defined.

(** C3 as it is stated fails.  Without a key on the command line and in the
    environment the run does not halt before dispatch: the shard of the
    three prompts of the input is submitted, fails in its own process, and
    the run ends normally. *)
Lemma missing_key_is_found_after_dispatch :
  let r := main calm_world no_key ∅ in_turn in
  py_or (arg_openai_api_key no_key) ((∅ : gmap string string) !! "OPENAI_API_KEY") = None
  ∧ submitted r = [0]
  ∧ submitted r ≠ []
  ∧ log r = [LogInfo "Generating Pairs"; LogException ValueError]
  ∧ outcome r = inr tt.
Proof. repeat split; try reflexivity. discriminate. Qed.

(** ** C4: the path of the failure file *)

(** C4 (amended).  Whatever a shard appends goes to one of two files: a
    record goes to the output path, a bare prompt goes to the output path
    with [_fails.jsonl] put after it, extension included; the two paths
    differ. *)
Theorem failure_file_is_output_path_with_suffix
    w keys all_prompts i shard_size ms out src path line :
  EvAppend path line ∈ (get_responses w keys all_prompts i shard_size ms out src).1 →
  ((path = out ∧ ∃ p output, line = result_record p output ms src)
   ∨ (path = out +:+ "_fails.jsonl" ∧ ∃ p, line = JStr p))
  ∧ out +:+ "_fails.jsonl" ≠ out.
Proof.
  intros Hin. split; [|apply fails_path_ne].
  destruct (get_responses_appends _ _ _ _ _ _ _ _ _ _ Hin) as (p & _ & [[-> [output ->]]|[-> ->]]).
  - left. split; [done|]. by exists p, output.
  - right. split; [done|]. by exists p.
Qed.

Lemma failure_file_is_output_path_with_suffix_witness :
  (("out.jsonl_fails.jsonl" = "out.jsonl"
    ∧ ∃ p output, JStr "x" = result_record p output default_model_settings "")
   ∨ ("out.jsonl_fails.jsonl" = "out.jsonl" +:+ "_fails.jsonl" ∧ ∃ p, JStr "x" = JStr p))
  ∧ "out.jsonl" +:+ "_fails.jsonl" ≠ "out.jsonl".
Proof.
  apply (failure_file_is_output_path_with_suffix interrupted_world [Some "k"] xy 0 2
           default_model_settings "out.jsonl" "" "out.jsonl_fails.jsonl" (JStr "x")).
  apply list_elem_of_In. vm_compute. tauto.
Defined.

(** C4 as it is stated fails.  For the output path [out.jsonl] the
    specification puts the failure file at [out_fails.jsonl]; the bare
    prompt ["x"] is appended to [out.jsonl_fails.jsonl] instead, and
    [out_fails.jsonl] gets nothing. *)
Lemma failure_file_is_not_before_the_extension :
  let run := get_responses interrupted_world [Some "k"] xy 0 2 default_model_settings
               "out.jsonl" "" in
  spec_insert_before_extension "_fails" "out.jsonl" = "out_fails.jsonl"
  ∧ store (spec_insert_before_extension "_fails" "out.jsonl") run.1 = []
  ∧ store "out.jsonl_fails.jsonl" run.1 = [JStr "x"]
  ∧ "out.jsonl" +:+ "_fails.jsonl" ≠ spec_insert_before_extension "_fails" "out.jsonl".
Proof.
  intros run. split; [reflexivity|]. split; [reflexivity|]. split; [reflexivity|].
  discriminate.
Qed.

(** ** C5: a failing shard and the others *)

(** C5.  Every unit of work runs to its end: its events, and so the lines
    it appends, are in the timeline complete, whatever the schedule and
    whatever the other units do, and the timeline holds nothing else.  When
    the units that raise do so with errors outside the recognized set, the
    dispatcher logs the error of every one of them, counts every unit, and
    returns normally. *)
Theorem failing_shard_is_isolated w keys all_prompts num_workers S out src sched :
  0 < S → 0 < num_workers →
  let r := collector w keys all_prompts num_workers S out src sched in
  let unit (i : Z) :=
    get_responses w keys all_prompts i S default_model_settings out src in
  (∀ (k : nat) i, submitted r !! k = Some i → events_of k (timeline r) = (unit i).1)
  ∧ timeline r ≡ₚ drain 0 ((λ i, (unit i).1) <$> submitted r)
  ∧ ((∀ i e, i ∈ submitted r → (unit i).2 = inl e → recognized e = false) →
     (∀ i e, i ∈ submitted r → (unit i).2 = inl e → LogException e ∈ log r)
     ∧ log r ≡ₚ LogInfo "Generating Pairs"
                :: omap logged_error ((λ i, (unit i).2) <$> submitted r)
     ∧ n <$> progress r = Some (Z.of_nat (length (submitted r)))
     ∧ outcome r = inr tt).
Proof.
  intros HS Hw r unit.
  split; [intros k i Hk; by apply collector_events_of|].
  subst r. rewrite collector_runs by done.
  cbn [submitted timeline log progress outcome fmap option_fmap option_map n] in *.
  set (starts := shard_starts (Z.of_nat (length all_prompts)) S) in *.
  set (futures := (λ i, get_responses w keys all_prompts i S default_model_settings
                          out src) <$> starts) in *.
  fold unit in futures.
  pose proof (results_of_futures futures (completion sched)) as Hperm.
  assert (snd <$> futures = (λ i, (unit i).2) <$> starts) as Hsnd
    by (unfold futures; by rewrite <- list_fmap_compose).
  assert (fst <$> futures = (λ i, (unit i).1) <$> starts) as Hfst
    by (unfold futures; by rewrite <- list_fmap_compose).
  rewrite Hsnd in Hperm.
  set (results := omap (λ k, snd <$> futures !! k) _) in *.
  split; [rewrite Hfst; apply interleave_perm|]. intros Hout.
  assert (Forall survives results) as Hall.
  { rewrite Hperm. apply Forall_fmap, Forall_forall. intros i Hi. cbn.
    destruct (unit i).2 as [e|[]] eqn:He; cbn; [|done].
    apply unrecognized_is_Exception. by eapply Hout. }
  rewrite (collect_all _ _ _ Hall). cbn [fst snd].
  split; [|split; [|split]].
  - intros i e Hi He. apply elem_of_app. right.
    rewrite Hperm. apply list_elem_of_omap.
    exists (inl e). split; [|done]. rewrite <- He. by apply (list_elem_of_fmap_2 (λ i, (unit i).2)).
  - cbn [app]. by rewrite Hperm.
  - do 2 f_equal. rewrite Hperm. by rewrite !length_fmap.
  - done.
Qed.

Lemma failing_shard_is_isolated_witness :
  let r := collector rate_limited_world [Some "k"] abc 2 2 "out.jsonl" "" second_first in
  let unit (i : Z) :=
    get_responses rate_limited_world [Some "k"] abc i 2 default_model_settings
      "out.jsonl" "" in
  (∀ (k : nat) i, submitted r !! k = Some i → events_of k (timeline r) = (unit i).1)
  ∧ timeline r ≡ₚ drain 0 ((λ i, (unit i).1) <$> submitted r)
  ∧ (∀ i e, i ∈ submitted r → (unit i).2 = inl e → LogException e ∈ log r)
  ∧ log r ≡ₚ LogInfo "Generating Pairs"
             :: omap logged_error ((λ i, (unit i).2) <$> submitted r)
  ∧ n <$> progress r = Some (Z.of_nat (length (submitted r)))
  ∧ outcome r = inr tt.
Proof.
  destruct (failing_shard_is_isolated rate_limited_world [Some "k"] abc 2 2 "out.jsonl" ""
              second_first) as (Hevents & Htimeline & Hlogged); [lia|lia|].
  split; [exact Hevents|]. split; [exact Htimeline|]. apply Hlogged.
  intros i e Hi He.
  change (i ∈ [0; 2]) in Hi.
  apply elem_of_cons in Hi as [->|Hi]; [|apply list_elem_of_singleton in Hi as ->].
  - vm_compute in He. by injection He as <-.
  - vm_compute in He. discriminate He.
Defined.

(** An interrupt during a call is of a recognized class but is raised
    outside the [try]: it ends the shard, and, not being an [Exception], it
    is not caught by the dispatcher either, which raises it in turn without
    logging or counting the unit.  The other shard still writes its
    record. *)
Example interrupt_during_a_call :
  let r := collector interrupted_call_world [Some "k"] abc 2 2 "out.jsonl" "" in_turn in
  file_after [] "out.jsonl" r
  = [ result_record "a" "re:a" default_model_settings "";
      result_record "c" "re:c" default_model_settings "" ]
  ∧ file_after [] "out.jsonl_fails.jsonl" r = []
  ∧ log r = [LogInfo "Generating Pairs"]
  ∧ progress r = Some {| total := 1; n := 0 |}
  ∧ outcome r = inl KeyboardInterrupt.
Proof. repeat split; reflexivity. Qed.

(** The shard of ["a"] and ["b"] fails on ["b"]; the shard of ["c"] writes
    its record all the same, the error is logged and both units are
    counted. *)
Example one_shard_fails :
  let r := collector rate_limited_world [Some "k"] abc 2 2 "out.jsonl" "" second_first in
  file_after [] "out.jsonl" r
  = [ result_record "c" "re:c" default_model_settings "";
      result_record "a" "re:a" default_model_settings "" ]
  ∧ log r = [LogInfo "Generating Pairs"; LogException (OtherError "RateLimitError")]
  ∧ progress r = Some {| total := 1; n := 2 |}
  ∧ outcome r = inr tt.
Proof. repeat split; reflexivity. Qed.

(** ** C6: an error that is not handled ends the shard *)

(** C6.  When the turn of a prompt raises (an error of the write that is
    not in the recognized set, or any error raised outside the [try] or in
    the handler), [get_responses] ends with that error right there: its
    trace is that of the prompts before plus that of the failing turn,
    whatever prompts follow in the shard; no call is made for a later
    position, and no file gets a line beyond those of the prompts before. *)
Theorem fatal_error_skips_rest_of_shard
    w keys all_prompts i shard_size ms out src model pre p post tr_pre tr_p e :
  let idx := slice_bound (Z.of_nat (length all_prompts)) i + Z.of_nat (length pre) in
  holds_prompts all_prompts i shard_size (pre ++ p :: post) →
  builds_model w keys i model →
  for_each (shard_items all_prompts i pre) (process_prompt w model ms out src)
  = (tr_pre, inr tt) →
  process_prompt w model ms out src (idx, p) = (tr_p, inl e) →
  get_responses w keys all_prompts i shard_size ms out src = (tr_pre ++ tr_p, inl e)
  ∧ calls (tr_pre ++ tr_p) = calls tr_pre ++ [(model, idx, p)]
  ∧ (∀ m j q, (m, j, q) ∈ calls (tr_pre ++ tr_p) → j ≤ idx)
  ∧ (∀ path, store path (tr_pre ++ tr_p) = store path tr_pre).
Proof.
  intros idx Hp Hm Hpre Hturn.
  pose proof (process_prompt_shape w model ms out src idx p) as Hshape.
  rewrite Hturn in Hshape. apply turn_raised_inv in Hshape as [Hcalls Hstore].
  repeat apply conj.
  - rewrite (get_responses_split _ _ _ _ _ _ _ _ _ _ _ _ Hp Hm).
    fold idx. rewrite Hpre, Hturn. cbn. done.
  - by rewrite calls_app, Hcalls.
  - intros m j q. rewrite calls_app, Hcalls. intros [Hin|Hin]%elem_of_app.
    + assert (tr_pre = (for_each (shard_items all_prompts i pre)
                                 (process_prompt w model ms out src)).1) as ->
        by by rewrite Hpre.
      apply shard_items_calls_bound in Hin. unfold idx. lia.
    + apply list_elem_of_singleton in Hin as [= _ -> _]. lia.
  - intros path. by rewrite store_app, Hstore, app_nil_r.
Qed.

Lemma fatal_error_skips_rest_of_shard_witness :
  let tr_pre := [EvCall (gpt "k") 0 "a";
                 EvAppend "out.jsonl" (result_record "a" "re:a" default_model_settings "")] in
  let tr_p := [EvCall (gpt "k") 1 "b"] in
  get_responses rate_limited_world [Some "k"] abc 0 3 default_model_settings "out.jsonl" ""
  = (tr_pre ++ tr_p, inl (OtherError "RateLimitError"))
  ∧ calls (tr_pre ++ tr_p) = calls tr_pre ++ [(gpt "k", 1, "b")]
  ∧ (∀ m j q, (m, j, q) ∈ calls (tr_pre ++ tr_p) → j ≤ 1)
  ∧ (∀ path, store path (tr_pre ++ tr_p) = store path tr_pre).
Proof.
  exact (fatal_error_skips_rest_of_shard rate_limited_world [Some "k"] abc 0 3
           default_model_settings "out.jsonl" "" (gpt "k") ["a"] "b" ["c"]
           _ _ (OtherError "RateLimitError") eq_refl eq_refl eq_refl eq_refl).
Defined.

(** ** C7: what happens on success *)

(** C7 (amended).  When [model(prompt)] has returned and the record can be
    written, the turn of that prompt consists of the call and of exactly one
    line appended to the output file; nothing is appended to the failure
    file, the loop goes on, and the line is a record with exactly the fields
    [prompt] (the prompt as read from the input), [response],
    [model_settings] and [source]. *)
Theorem answered_and_written_once
    w keys all_prompts i shard_size ms out src model pre p post output :
  let idx := slice_bound (Z.of_nat (length all_prompts)) i + Z.of_nat (length pre) in
  let line := result_record p output ms src in
  let turn := [EvCall model idx p; EvAppend out line] in
  holds_prompts all_prompts i shard_size (pre ++ p :: post) →
  builds_model w keys i model →
  model_call w model idx p = inr output →
  jsonlines_open w out idx = None →
  writer_write w out idx line = None →
  get_responses w keys all_prompts i shard_size ms out src
  = (for_each (shard_items all_prompts i pre) (process_prompt w model ms out src);;
     (turn, inr tt);;
     for_each (enumerate_from (idx + 1) post) (process_prompt w model ms out src))
  ∧ store out turn = [line]
  ∧ store (out +:+ "_fails.jsonl") turn = []
  ∧ ∃ fields, line = JObj fields
      ∧ dom fields = ({[ "prompt"; "response"; "model_settings"; "source" ]} : gset string)
      ∧ fields !! "prompt" = Some (JStr p)
      ∧ fields !! "response" = Some (JStr output)
      ∧ fields !! "model_settings" = Some (JObj ms)
      ∧ fields !! "source" = Some (JStr src).
Proof.
  intros idx line turn Hp Hm Hc Ho Hw. repeat apply conj.
  - rewrite (get_responses_split _ _ _ _ _ _ _ _ _ _ _ _ Hp Hm).
    fold idx. by rewrite (process_prompt_success _ _ _ _ _ _ _ _ Hc Ho Hw).
  - unfold turn, store. cbn. by rewrite decide_True.
  - unfold turn, store. cbn. rewrite decide_False; [done|].
    intros H. by apply (fails_path_ne out).
  - apply result_record_fields.
Qed.

Lemma answered_and_written_once_witness :
  let body := process_prompt calm_world (gpt "k") default_model_settings "out.jsonl" "" in
  let line := result_record "b" "re:b" default_model_settings "" in
  let turn := [EvCall (gpt "k") 1 "b"; EvAppend "out.jsonl" line] in
  get_responses calm_world [Some "k"] abc 0 3 default_model_settings "out.jsonl" ""
  = (for_each (shard_items abc 0 ["a"]) body;; (turn, inr tt);;
     for_each (enumerate_from 2 ["c"]) body)
  ∧ store "out.jsonl" turn = [line]
  ∧ store "out.jsonl_fails.jsonl" turn = []
  ∧ ∃ fields, line = JObj fields
      ∧ dom fields = ({[ "prompt"; "response"; "model_settings"; "source" ]} : gset string)
      ∧ fields !! "prompt" = Some (JStr "b")
      ∧ fields !! "response" = Some (JStr "re:b")
      ∧ fields !! "model_settings" = Some (JObj default_model_settings)
      ∧ fields !! "source" = Some (JStr "").
Proof.
  exact (answered_and_written_once calm_world [Some "k"] abc 0 3
           default_model_settings "out.jsonl" "" (gpt "k") ["a"] "b" ["c"] "re:b"
           eq_refl eq_refl eq_refl eq_refl eq_refl).
Defined.

(** C7 as it is stated fails.  [model("x")] returns ["re:x"], but the user
    interrupts the program while the record is written: the handler of line
    56 takes over, the prompt goes to the failure file and the output file
    gets no record of ["x"]. *)
Lemma answered_prompt_is_not_written :
  let run := get_responses interrupted_world [Some "k"] xy 0 2 default_model_settings
               "out.jsonl" "" in
  model_call interrupted_world (gpt "k") 0 "x" = inr "re:x"
  ∧ run.2 = inr tt
  ∧ store "out.jsonl" run.1 = [result_record "y" "re:y" default_model_settings ""]
  ∧ ¬ ∃ line, line ∈ store "out.jsonl" run.1 ∧ prompt_of_line line = Some "x".
Proof.
  intros run.
  assert (store "out.jsonl" run.1 = [result_record "y" "re:y" default_model_settings ""])
    as Hstore by reflexivity.
  split; [reflexivity|]. split; [reflexivity|]. split; [exact Hstore|].
  intros (line & Hin & Hprompt). rewrite Hstore in Hin.
  apply list_elem_of_singleton in Hin as ->. discriminate Hprompt.
Qed.

(** ** C8: order within a shard *)

(** C8.  A shard is worked through one prompt at a time, in the order of
    its prompts: the trace of [get_responses] is a sequence of whole turns,
    the turn of a prompt being the call for it followed by what is appended
    for it, for the first [k] prompts of the shard; the records appended to
    the output file are those of some of these prompts, in their order.  In
    the pool the events of a unit of work are found in the timeline
    complete and in this order, whatever the schedule. *)
Theorem shard_is_processed_in_order w keys all_prompts i shard_size ms out src :
  let prompts := omap (λ d : gmap string string, d !! "prompt")
                      (py_slice all_prompts i (i + shard_size)) in
  let tr := (get_responses w keys all_prompts i shard_size ms out src).1 in
  (∃ (k : nat) (turns : list (list event)) (written : list string),
     tr = concat turns
     ∧ Forall2 (λ turn item, ∃ model r, builds_model w keys i model
                  ∧ turn_shape model ms out src item.1 item.2 (turn, r))
               turns (take k (shard_items all_prompts i prompts))
     ∧ (calls tr).*2 = take k prompts
     ∧ written `sublist_of` take k prompts
     ∧ Forall2 (λ line p, ∃ output, line = result_record p output ms src)
               (store out tr) written)
  ∧ (∀ num_workers sched (u : nat),
       0 < shard_size → 0 < num_workers →
       let r := collector w keys all_prompts num_workers shard_size out src sched in
       submitted r !! u = Some i →
       events_of u (timeline r)
       = (get_responses w keys all_prompts i shard_size default_model_settings
            out src).1).
Proof.
  intros prompts tr. split.
  - subst tr prompts.
    destruct (get_responses_cases w keys all_prompts i shard_size ms out src)
      as [[e ->]|(ps & model & Hps & Hm & ->)].
    + exists 0%nat, [], []. rewrite !take_0. repeat split; constructor.
    + rewrite (prompts_of_inr _ _ _ Hps).
      destruct (for_each_turns w model ms out src (shard_items all_prompts i ps))
        as (k & turns & _ & Htr & Hshape & _).
      destruct (turns_store_out _ _ _ _ _ _ Hshape) as (written & Hsub & Hlines).
      exists k, turns, written. rewrite Htr.
      split; [done|]. split; [|split; [|split]].
      * eapply Forall2_impl; [exact Hshape|]. intros turn item [r Hr]. by exists model, r.
      * rewrite (turns_calls _ _ _ _ _ _ Hshape).
        rewrite <- list_fmap_compose.
        rewrite <- (enumerate_from_snd (slice_bound (Z.of_nat (length all_prompts)) i) ps) at 2.
        by rewrite <- fmap_take.
      * rewrite fmap_take in Hsub. unfold shard_items in Hsub.
        by rewrite enumerate_from_snd in Hsub.
      * done.
  - intros num_workers sched u HS Hw r Hu. subst r.
    by apply collector_events_of.
Qed.

(** The first scenario of the specification: three prompts, shards of two,
    two workers, the second unit moving first.  Two shards are submitted;
    the output file ends with three records, that of ["a"] before that of
    ["b"]. *)
Example scenario_three_prompts :
  let r := collector calm_world [Some "k"] abc 2 2 "out.jsonl" "" second_first in
  submitted r = [0; 2]
  ∧ file_after [] "out.jsonl" r
    = [ result_record "c" "re:c" default_model_settings "";
        result_record "a" "re:a" default_model_settings "";
        result_record "b" "re:b" default_model_settings "" ]
  ∧ store "out.jsonl" (events_of 0 (timeline r))
    = [ result_record "a" "re:a" default_model_settings "";
        result_record "b" "re:b" default_model_settings "" ]
  ∧ file_after [] "out.jsonl_fails.jsonl" r = []
  ∧ outcome r = inr tt.
Proof. repeat split; reflexivity. Qed.

Lemma shard_is_processed_in_order_witness :
  let r := collector calm_world [Some "k"] abc 2 2 "out.jsonl" "" second_first in
  events_of 1 (timeline r)
  = (get_responses calm_world [Some "k"] abc 2 2 default_model_settings "out.jsonl" "").1.
Proof.
  apply (proj2 (shard_is_processed_in_order calm_world [Some "k"] abc 2 2
                  default_model_settings "out.jsonl" "")); [lia|lia|reflexivity].
Defined.

(** ** C9: the total of the progress bar *)

(** C9.  The total of the progress bar is [N // S], the quotient rounded
    down.  For a positive [S] the counter is raised once for every future the
    loop gets past, and ends at the number of shards when the loop ends
    normally; that number is [N // S + 1], above the total, as soon as [S]
    does not divide [N]. *)
Theorem progress_total_is_rounded_down w keys all_prompts num_workers S out src sched :
  S ≠ 0 →
  let N := Z.of_nat (length all_prompts) in
  let r := collector w keys all_prompts num_workers S out src sched in
  let shards := Z.of_nat (length (submitted r)) in
  total <$> progress r = Some (N / S)
  ∧ (0 < S → 0 < num_workers →
     (∃ count, n <$> progress r = Some count
        ∧ 0 ≤ count ≤ shards
        ∧ (outcome r = inr tt → count = shards))
     ∧ (N `mod` S ≠ 0 → N / S < shards ∧ shards = N / S + 1)
     ∧ (N `mod` S = 0 → shards = N / S)).
Proof.
  intros HS0 N r shards. split; [by apply collector_total|].
  intros HS Hw. subst shards r. rewrite collector_runs by done.
  cbn [submitted progress outcome fmap option_fmap option_map n].
  fold N. assert (0 ≤ N) as HN by (unfold N; lia).
  rewrite (shard_starts_length _ _ HS HN).
  set (futures := (λ i, get_responses w keys all_prompts i S default_model_settings
                          out src) <$> shard_starts N S).
  pose proof (results_length futures (completion sched)) as Hlen.
  assert (Z.of_nat (length futures) = ceil_div N S) as Hfut.
  { unfold futures. rewrite length_fmap. by apply shard_starts_length. }
  pose proof (Z.div_mod N S ltac:(lia)) as Hdm.
  pose proof (Z.mod_pos_bound N S HS) as Hbound.
  split; [|split].
  - eexists. split; [reflexivity|].
    match goal with |- context [collect ?rs 0 ?lg] =>
      pose proof (collect_count rs 0 lg) as Hcount;
      destruct (collect rs 0 lg) as [[count logged] res]
    end.
    cbv beta iota zeta in Hcount. cbn [fst snd]. rewrite Hlen in Hcount.
    destruct Hcount as [? Hend]. split; [lia|]. intros Hres.
    specialize (Hend Hres). lia.
  - intros Hmod. unfold ceil_div.
    assert ((N + S - 1) / S = N / S + 1) as ->; [|lia].
    symmetry. apply (Z.div_unique_pos _ _ _ (N `mod` S - 1)); lia.
  - intros Hmod. unfold ceil_div.
    symmetry. apply (Z.div_unique_pos _ _ _ (S - 1)); lia.
Qed.

Lemma progress_total_is_rounded_down_witness :
  let r := collector calm_world [Some "k"] abc 2 2 "out.jsonl" "" in_turn in
  let shards := Z.of_nat (length (submitted r)) in
  total <$> progress r = Some (3 / 2)
  ∧ (0 < 2 → 0 < 2 →
     (∃ count, n <$> progress r = Some count
        ∧ 0 ≤ count ≤ shards
        ∧ (outcome r = inr tt → count = shards))
     ∧ (3 `mod` 2 ≠ 0 → 3 / 2 < shards ∧ shards = 3 / 2 + 1)
     ∧ (3 `mod` 2 = 0 → shards = 3 / 2)).
Proof.
  apply (progress_total_is_rounded_down calm_world [Some "k"] abc 2 2 "out.jsonl" ""
           in_turn). lia.
Defined.

(** Three prompts in shards of two: the bar announces one unit, two are
    submitted and counted. *)
Example progress_three_prompts :
  let r := collector calm_world [Some "k"] abc 2 2 "out.jsonl" "" in_turn in
  submitted r = [0; 2] ∧ progress r = Some {| total := 1; n := 2 |}.
Proof. split; reflexivity. Qed.

(** ** C10: the parameters of the model *)

(** C10.  Every call of a shard is made with a model built with
    [model_kwargs = {"max_tokens": -1}], whatever [model_settings] is;
    [model_settings] is copied as it is into every record appended to the
    output file; and two runs that differ in [model_settings] only make the
    same calls, as far as both get. *)
Theorem model_settings_are_only_copied w keys all_prompts i shard_size ms out src :
  let tr := (get_responses w keys all_prompts i shard_size ms out src).1 in
  Forall (λ c : ModelConfig * Z * string,
            model_name c.1.1 = "gpt-3.5-turbo"
            ∧ model_kwargs c.1.1 = {[ "max_tokens" := JInt (-1) ]})
         (calls tr)
  ∧ Forall (λ line, ∃ fields, line = JObj fields
                      ∧ fields !! "model_settings" = Some (JObj ms))
           (store out tr)
  ∧ ∀ ms', let tr' := (get_responses w keys all_prompts i shard_size ms' out src).1 in
           calls tr `prefix_of` calls tr' ∨ calls tr' `prefix_of` calls tr.
Proof.
  intros tr. split; [|split].
  - subst tr.
    destruct (get_responses_calls w keys all_prompts i shard_size ms out src)
      as (k & model & -> & [->|Hm]).
    + rewrite take_0. constructor.
    + apply builds_model_config in Hm as (Hname & Hkw & _).
      apply Forall_fmap, Forall_forall. by intros item _.
  - apply Forall_forall. intros line Hin.
    apply get_responses_output_lines in Hin as (p & output & ->).
    destruct (result_record_fields p output ms src) as (fields & -> & _ & _ & _ & Hms & _).
    by exists fields.
  - intros ms' tr'. subst tr tr'.
    destruct (get_responses_calls w keys all_prompts i shard_size ms out src)
      as (k & model & -> & Hk).
    destruct (get_responses_calls w keys all_prompts i shard_size ms' out src)
      as (k' & model' & -> & Hk').
    destruct Hk as [->|Hm]; [left; rewrite take_0; apply prefix_nil|].
    destruct Hk' as [->|Hm']; [right; rewrite take_0; apply prefix_nil|].
    assert (model' = model) as ->.
    { unfold builds_model in Hm, Hm'. rewrite Hm in Hm'. by injection Hm'. }
    rewrite !fmap_take.
    destruct (decide (k ≤ k')%nat); [left|right]; apply take_prefix_take; lia.
Qed.

(** The default of [model_settings] and another value: the calls are the
    same, the records differ in that field only. *)
Example model_settings_example :
  let other : gmap string json := {[ "max_tokens" := JInt 16 ]} in
  let run ms := get_responses calm_world [Some "k"] abc 0 1 ms "out.jsonl" "" in
  calls (run other).1 = [(gpt "k", 0, "a")]
  ∧ calls (run default_model_settings).1 = [(gpt "k", 0, "a")]
  ∧ store "out.jsonl" (run other).1 = [result_record "a" "re:a" other ""].
Proof. repeat split; reflexivity. Qed.

(** * Further properties *)

(** ** Degenerate arguments *)

Lemma range_down_empty (fuel : nat) (i stop step : Z) :
  i ≤ stop → range_down fuel i stop step = [].
Proof.
  intros Hle. destruct fuel as [|fuel]; [done|].
  cbn [range_down]. by rewrite bool_decide_eq_false_2 by lia.
Qed.

Lemma as_completed_none (completion : list nat) : as_completed completion 0 = [].
Proof. apply Permutation_nil_r. by rewrite as_completed_perm. Qed.

(** X1.  With a shard size of zero the division of line 70 raises before
    the pool exists; with a negative one, or with no prompt at all, the
    range of line 72 is empty.  In all these cases no unit of work is
    submitted and no file is touched; only the first case ends with an
    error. *)
Theorem nothing_to_dispatch w keys all_prompts num_workers S out src sched :
  let N := Z.of_nat (length all_prompts) in
  let r := collector w keys all_prompts num_workers S out src sched in
  (S = 0 → submitted r = [] ∧ timeline r = [] ∧ progress r = None
           ∧ outcome r = inl ZeroDivisionError)
  ∧ (0 < num_workers → S < 0 ∨ (0 < S ∧ N = 0) →
       submitted r = [] ∧ timeline r = []
       ∧ progress r = Some {| total := N / S; n := 0 |}
       ∧ log r = [LogInfo "Generating Pairs"]
       ∧ outcome r = inr tt).
Proof.
  intros N r. subst r. unfold collector, floordiv. fold N. split.
  - intros ->. by rewrite bool_decide_eq_true_2.
  - intros Hw HS. rewrite bool_decide_eq_false_2 by lia.
    rewrite bool_decide_eq_false_2 by lia.
    assert (py_range 0 N S = inr []) as ->.
    { unfold py_range. rewrite bool_decide_eq_false_2 by lia.
      destruct HS as [HS|[HS HN]].
      - rewrite bool_decide_eq_false_2 by lia. f_equal. apply range_down_empty. lia.
      - rewrite bool_decide_eq_true_2 by lia. rewrite HN. done. }
    cbn [fmap list_fmap length]. rewrite as_completed_none.
    cbn [omap list_omap collect submitted timeline progress log outcome].
    by rewrite interleave_silent by constructor.
Qed.

Lemma nothing_to_dispatch_witness :
  let r := collector calm_world [Some "k"] abc 10 (-2) "out.jsonl" "" in_turn in
  submitted r = [] ∧ timeline r = []
  ∧ progress r = Some {| total := 3 / (-2); n := 0 |}
  ∧ log r = [LogInfo "Generating Pairs"]
  ∧ outcome r = inr tt.
Proof.
  apply (proj2 (nothing_to_dispatch calm_world [Some "k"] abc 10 (-2) "out.jsonl" ""
                  in_turn)); lia.
Defined.

(** ** The prologue of a unit of work, once more *)

(** X2.  The prompts of the shard are read (line 44) before anything else:
    when a record of the shard has no ["prompt"], [get_responses] raises
    [KeyError] without having built a model, called the API or written a
    line, whatever the keys and the other records are. *)
Theorem record_without_prompt_stops_the_shard
    w keys all_prompts i shard_size ms out src d :
  d ∈ py_slice all_prompts i (i + shard_size) →
  d !! "prompt" = None →
  get_responses w keys all_prompts i shard_size ms out src = ([], inl KeyError).
Proof.
  intros Hin Hd. rewrite get_responses_unfold.
  by rewrite (prompts_of_missing _ _ Hin Hd).
Qed.

Lemma record_without_prompt_stops_the_shard_witness :
  get_responses calm_world [Some "k"] [ {[ "prompt" := "a" ]}; {[ "text" := "b" ]} ] 0 2
    default_model_settings "out.jsonl" ""
  = ([], inl KeyError).
Proof.
  apply (record_without_prompt_stops_the_shard calm_world [Some "k"]
           [ {[ "prompt" := "a" ]}; {[ "text" := "b" ]} ] 0 2 default_model_settings
           "out.jsonl" "" {[ "text" := "b" ]}).
  - apply list_elem_of_In. vm_compute. tauto.
  - reflexivity.
Defined.

(** X3.  A scraper without any key cannot draw one: [random.randint(0, -1)]
    raises [ValueError], and a unit of work whose records all have a prompt
    ends with it before any call. *)
Theorem no_keys_no_calls w all_prompts i shard_size ms out src prompts :
  holds_prompts all_prompts i shard_size prompts →
  get_responses w [] all_prompts i shard_size ms out src = ([], inl ValueError).
Proof.
  intros Hp. rewrite get_responses_unfold, Hp. by rewrite (bind_ret_l prompts).
Qed.

Lemma no_keys_no_calls_witness :
  get_responses calm_world [] abc 0 2 default_model_settings "out.jsonl" ""
  = ([], inl ValueError).
Proof.
  exact (no_keys_no_calls calm_world abc 0 2 default_model_settings "out.jsonl" ""
           ["a"; "b"] eq_refl).
Defined.

(** X4.  The key is drawn once per shard (line 47), not once per prompt:
    all the calls of a unit of work are made with one and the same key, and
    that key is one of [openai_api_keys]. *)
Theorem one_key_per_shard w keys all_prompts i shard_size ms out src :
  let cs := calls (get_responses w keys all_prompts i shard_size ms out src).1 in
  ∃ key, Forall (λ c : ModelConfig * Z * string, openai_api_key c.1.1 = key) cs
         ∧ (cs = [] ∨ key ∈ keys).
Proof.
  intros cs. subst cs.
  destruct (get_responses_calls w keys all_prompts i shard_size ms out src)
    as (k & model & -> & [->|Hm]).
  - exists None. rewrite take_0. split; [constructor|by left].
  - exists (openai_api_key model). split.
    + apply Forall_fmap, Forall_forall. by intros item _.
    + right. by apply builds_model_config in Hm as (_ & _ & ?).
Qed.

(** Two keys, a draw that picks the second: every call carries it. *)
Example second_key_drawn :
  let w := {| random_draw := λ _, 1;
              openai_chat := λ _, None;
              model_call := λ _ _ p, inr p;
              jsonlines_open := λ _ _, None;
              writer_write := λ _ _ _, None;
              reader := λ _, inr [] |} in
  (calls (get_responses w [Some "k1"; Some "k2"] abc 0 3 default_model_settings
            "out.jsonl" "").1).*1.*1
  = [gpt "k2"; gpt "k2"; gpt "k2"].
Proof. reflexivity. Qed.

(** ** Errors around the [try] *)

Lemma process_prompt_open_raises w model ms out src idx p output e :
  model_call w model idx p = inr output →
  jsonlines_open w out idx = Some e →
  process_prompt w model ms out src (idx, p) = ([EvCall model idx p], inl e).
Proof.
  intros Hc Ho. unfold process_prompt, call, check. rewrite Hc. cbn. by rewrite Ho.
Qed.

Lemma process_prompt_handler_raises w model ms out src idx p output e e' :
  model_call w model idx p = inr output →
  jsonlines_open w out idx = None →
  writer_write w out idx (result_record p output ms src) = Some e →
  recognized e = true →
  jsonlines_open w (out +:+ "_fails.jsonl") idx = Some e'
  ∨ (jsonlines_open w (out +:+ "_fails.jsonl") idx = None
     ∧ writer_write w (out +:+ "_fails.jsonl") idx (JStr p) = Some e') →
  process_prompt w model ms out src (idx, p)
  = ([EvCall model idx p; EvWarn skip_warning], inl e').
Proof.
  intros Hc Ho Hw He Hfail. unfold process_prompt, call, write, check.
  rewrite Hc. cbn. rewrite Ho. cbn. fold (result_record p output ms src).
  rewrite Hw. cbn. rewrite He.
  destruct Hfail as [Hfo|[Hfo Hfw]]; rewrite Hfo; cbn; [done|]. by rewrite Hfw.
Qed.

(** X5.  The output file is opened (line 52) after the call and outside the
    [try]: when opening it raises, be it with an error of a recognized
    class, the answer already obtained is written nowhere, nothing goes to
    the failure file, and the shard ends there. *)
Theorem answer_is_lost_when_output_cannot_be_opened
    w keys all_prompts i shard_size ms out src model pre p post tr_pre output e :
  let idx := slice_bound (Z.of_nat (length all_prompts)) i + Z.of_nat (length pre) in
  holds_prompts all_prompts i shard_size (pre ++ p :: post) →
  builds_model w keys i model →
  for_each (shard_items all_prompts i pre) (process_prompt w model ms out src)
  = (tr_pre, inr tt) →
  model_call w model idx p = inr output →
  jsonlines_open w out idx = Some e →
  get_responses w keys all_prompts i shard_size ms out src
  = (tr_pre ++ [EvCall model idx p], inl e)
  ∧ ∀ path, store path (tr_pre ++ [EvCall model idx p]) = store path tr_pre.
Proof.
  intros idx Hp Hm Hpre Hc Ho. split.
  - rewrite (get_responses_split _ _ _ _ _ _ _ _ _ _ _ _ Hp Hm). fold idx.
    by rewrite Hpre, (process_prompt_open_raises _ _ _ _ _ _ _ _ _ Hc Ho).
  - intros path. rewrite store_app. cbn. by rewrite app_nil_r.
Qed.

(** X6.  The handler of lines 56-59 is not protected itself: when the record
    cannot be written and the failure file cannot be opened or written
    either, the prompt is recorded in neither file, the warning is all that
    is left of it, and the shard ends with the error of the handler. *)
Theorem failure_of_the_handler_ends_the_shard
    w keys all_prompts i shard_size ms out src model pre p post tr_pre output e e' :
  let idx := slice_bound (Z.of_nat (length all_prompts)) i + Z.of_nat (length pre) in
  let turn := [EvCall model idx p; EvWarn skip_warning] in
  holds_prompts all_prompts i shard_size (pre ++ p :: post) →
  builds_model w keys i model →
  for_each (shard_items all_prompts i pre) (process_prompt w model ms out src)
  = (tr_pre, inr tt) →
  model_call w model idx p = inr output →
  jsonlines_open w out idx = None →
  writer_write w out idx (result_record p output ms src) = Some e →
  recognized e = true →
  jsonlines_open w (out +:+ "_fails.jsonl") idx = Some e'
  ∨ (jsonlines_open w (out +:+ "_fails.jsonl") idx = None
     ∧ writer_write w (out +:+ "_fails.jsonl") idx (JStr p) = Some e') →
  get_responses w keys all_prompts i shard_size ms out src = (tr_pre ++ turn, inl e')
  ∧ ∀ path, store path (tr_pre ++ turn) = store path tr_pre.
Proof.
  intros idx turn Hp Hm Hpre Hc Ho Hw He Hfail. split.
  - rewrite (get_responses_split _ _ _ _ _ _ _ _ _ _ _ _ Hp Hm). fold idx.
    by rewrite Hpre, (process_prompt_handler_raises _ _ _ _ _ _ _ _ _ _ Hc Ho Hw He Hfail).
  - intros path. rewrite store_app. cbn. by rewrite app_nil_r.
Qed.

Lemma answer_is_lost_when_output_cannot_be_opened_witness :
  let tr_pre := [EvCall (gpt "k") 0 "a";
                 EvAppend "out.jsonl" (result_record "a" "re:a" default_model_settings "")] in
  get_responses unopenable_world [Some "k"] abc 0 3 default_model_settings "out.jsonl" ""
  = (tr_pre ++ [EvCall (gpt "k") 1 "b"], inl ValueError)
  ∧ ∀ path, store path (tr_pre ++ [EvCall (gpt "k") 1 "b"]) = store path tr_pre.
Proof.
  exact (answer_is_lost_when_output_cannot_be_opened unopenable_world [Some "k"] abc 0 3
           default_model_settings "out.jsonl" "" (gpt "k") ["a"] "b" ["c"] _ "re:b"
           ValueError eq_refl eq_refl eq_refl eq_refl eq_refl).
Defined.

Lemma failure_of_the_handler_ends_the_shard_witness :
  let turn := [EvCall (gpt "k") 0 "x"; EvWarn skip_warning] in
  get_responses twice_interrupted_world [Some "k"] xy 0 2 default_model_settings
    "out.jsonl" ""
  = ([] ++ turn, inl KeyboardInterrupt)
  ∧ ∀ path, store path ([] ++ turn) = store path [].
Proof.
  apply (failure_of_the_handler_ends_the_shard twice_interrupted_world [Some "k"] xy 0 2
           default_model_settings "out.jsonl" "" (gpt "k") [] "x" ["y"] [] "re:x"
           KeyboardInterrupt KeyboardInterrupt); try reflexivity.
  right. split; reflexivity.
Defined.

(** ** A shard that returns *)

(** When the loop returns, every turn has returned. *)
Lemma for_each_returned_turns w model ms out src items tr :
  for_each items (process_prompt w model ms out src) = (tr, inr tt) →
  ∃ turns, tr = concat turns
    ∧ Forall2 (λ turn item, turn_shape model ms out src item.1 item.2 (turn, inr tt))
              turns items.
Proof.
  revert tr. induction items as [|[idx p] items IH]; intros tr.
  - intros [= <-]. exists []. split; [done|constructor].
  - rewrite for_each_cons.
    pose proof (process_prompt_shape w model ms out src idx p) as Hturn.
    destruct (process_prompt w model ms out src (idx, p)) as [tr1 [e|[]]]; [done|].
    rewrite bind_returns.
    destruct (for_each items _) as [tr2 [e|[]]] eqn:Hrest; [done|].
    cbn. intros [= <-]. destruct (IH tr2 eq_refl) as (turns & -> & Hshape).
    exists (tr1 :: turns). split; [done|]. by constructor.
Qed.

Lemma returned_turns_account model ms out src turns items :
  Forall2 (λ turn item, turn_shape model ms out src item.1 item.2 (turn, inr tt))
          turns items →
  ∃ written failed,
    written `sublist_of` items.*2 ∧ failed `sublist_of` items.*2
    ∧ written ++ failed ≡ₚ items.*2
    ∧ Forall2 (λ line p, ∃ output, line = result_record p output ms src)
              (store out (concat turns)) written
    ∧ store (out +:+ "_fails.jsonl") (concat turns) = JStr <$> failed
    ∧ calls (concat turns) = call_of model <$> items.
Proof.
  induction 1 as [|turn [idx p] turns items Hturn _
                   (written & failed & Hw & Hf & Hperm & Hout & Hfails & Hcalls)].
  - exists [], []. repeat split; done.
  - change (concat (turn :: turns)) with (turn ++ concat turns).
    rewrite !store_app, calls_app, Hfails, Hcalls, fmap_cons. cbn [fst snd] in *.
    inversion Hturn as [output Htr| Htr | |]; subst turn.
    + exists (p :: written), failed. unfold store at 1 3. cbn.
      rewrite decide_True by done.
      rewrite decide_False by (intros H; by apply (fails_path_ne out)).
      split; [by apply sublist_skip|]. split; [by apply sublist_cons|].
      split; [cbn; by rewrite Hperm|].
      split; [constructor; [by exists output|done]|]. done.
    + exists written, (p :: failed). unfold store at 1 3. cbn.
      rewrite decide_False by apply fails_path_ne.
      rewrite decide_True by done.
      split; [by apply sublist_cons|]. split; [by apply sublist_skip|].
      split; [by rewrite <- Permutation_middle, Hperm|]. done.
Qed.

(** X7.  When a unit of work returns, every prompt of its shard has been
    called once, in order, and is accounted for in exactly one of the two
    files: the prompts split into those with a record in the output file and
    those in the failure file, each file keeping the order of the shard. *)
Theorem returned_shard_accounts_for_every_prompt
    w keys all_prompts i shard_size ms out src :
  let prompts := omap (λ d : gmap string string, d !! "prompt")
                      (py_slice all_prompts i (i + shard_size)) in
  let run := get_responses w keys all_prompts i shard_size ms out src in
  run.2 = inr tt →
  ∃ written failed,
    written `sublist_of` prompts ∧ failed `sublist_of` prompts
    ∧ written ++ failed ≡ₚ prompts
    ∧ Forall2 (λ line p, ∃ output, line = result_record p output ms src)
              (store out run.1) written
    ∧ store (out +:+ "_fails.jsonl") run.1 = JStr <$> failed
    ∧ (calls run.1).*2 = prompts.
Proof.
  intros prompts run Hret. subst run prompts.
  destruct (get_responses_cases w keys all_prompts i shard_size ms out src)
    as [[e Hrun]|(ps & model & Hps & Hm & Hrun)]; rewrite Hrun in Hret |- *; [done|].
  rewrite (prompts_of_inr _ _ _ Hps).
  destruct (for_each _ _) as [tr res] eqn:Hloop. cbn in Hret. subst res.
  destruct (for_each_returned_turns _ _ _ _ _ _ _ Hloop) as (turns & -> & Hshape).
  destruct (returned_turns_account _ _ _ _ _ _ Hshape)
    as (written & failed & Hw & Hf & Hperm & Hout & Hfails & Hcalls).
  unfold shard_items in *. rewrite enumerate_from_snd in *.
  exists written, failed. cbn [fst]. repeat split; try done.
  rewrite Hcalls, <- list_fmap_compose.
  by rewrite <- (enumerate_from_snd (slice_bound (Z.of_nat (length all_prompts)) i) ps) at 2.
Qed.

Lemma returned_shard_accounts_for_every_prompt_witness :
  let run := get_responses interrupted_world [Some "k"] xy 0 2 default_model_settings
               "out.jsonl" "" in
  ∃ written failed,
    written `sublist_of` ["x"; "y"] ∧ failed `sublist_of` ["x"; "y"]
    ∧ written ++ failed ≡ₚ ["x"; "y"]
    ∧ Forall2 (λ line p, ∃ output, line = result_record p output default_model_settings "")
              (store "out.jsonl" run.1) written
    ∧ store ("out.jsonl" +:+ "_fails.jsonl") run.1 = JStr <$> failed
    ∧ (calls run.1).*2 = ["x"; "y"].
Proof.
  exact (returned_shard_accounts_for_every_prompt interrupted_world [Some "k"] xy 0 2
           default_model_settings "out.jsonl" "" eq_refl).
Defined.

(** ** When nothing fails *)

Lemma shard_model_builds w keys i :
  keys ≠ [] → (∀ cfg, openai_chat w cfg = None) → ∃ model, builds_model w keys i model.
Proof.
  intros Hkeys Hchat. unfold builds_model, shard_model, randint.
  assert (0 < Z.of_nat (length keys)) as Hlen by (destruct keys; [done|cbn; lia]).
  rewrite bool_decide_eq_false_2 by lia. rewrite bind_ret_l. unfold index.
  set (k := 0 + random_draw w i `mod` (Z.of_nat (length keys) - 1 - 0 + 1)).
  assert (0 ≤ k < Z.of_nat (length keys)) as Hk.
  { unfold k. pose proof (Z.mod_pos_bound (random_draw w i)
                            (Z.of_nat (length keys) - 1 - 0 + 1) ltac:(lia)). lia. }
  destruct (lookup_lt_is_Some_2 keys (Z.to_nat k) ltac:(lia)) as [key ->].
  rewrite bind_ret_l. unfold OpenAIChat. rewrite Hchat. cbn. by eexists.
Qed.

Lemma for_each_never_fails w model ms out src items :
  never_fails w →
  ∃ tr, for_each items (process_prompt w model ms out src) = (tr, inr tt)
    ∧ Forall2 (λ line item, ∃ output, model_call w model item.1 item.2 = inr output
                                      ∧ line = result_record item.2 output ms src)
              (store out tr) items
    ∧ store (out +:+ "_fails.jsonl") tr = []
    ∧ calls tr = call_of model <$> items.
Proof.
  intros (_ & Hcall & Hopen & Hwrite).
  induction items as [|[idx p] items (tr & Hloop & Hout & Hfails & Hcalls)].
  - exists []. repeat split; done.
  - destruct (Hcall model idx p) as [output Hc].
    rewrite for_each_cons, Hloop.
    rewrite (process_prompt_success w model ms out src idx p output Hc
               (Hopen _ _) (Hwrite _ _ _)).
    eexists. split; [reflexivity|].
    change (?a :: ?b :: tr) with ([a; b] ++ tr).
    rewrite !store_app, calls_app, Hfails, Hcalls. unfold store at 1 3. cbn.
    rewrite decide_True by done.
    rewrite decide_False by (intros H; by apply (fails_path_ne out)).
    split; [|done]. constructor; [by exists output|done].
Qed.

(** X8.  When nothing fails (the key is accepted, every call returns, the
    files can be opened and written) and the scraper has a key, a unit of
    work whose records all have a prompt returns, having called the API once
    for every prompt of its shard, in order, and appended for each the
    record with the answer it got; the failure file is left alone. *)
Theorem calm_shard_writes_every_record
    w keys all_prompts i shard_size ms out src prompts :
  never_fails w → keys ≠ [] →
  holds_prompts all_prompts i shard_size prompts →
  let run := get_responses w keys all_prompts i shard_size ms out src in
  let items := shard_items all_prompts i prompts in
  ∃ model, builds_model w keys i model
    ∧ run.2 = inr tt
    ∧ calls run.1 = call_of model <$> items
    ∧ Forall2 (λ line item, ∃ output, model_call w model item.1 item.2 = inr output
                                      ∧ line = result_record item.2 output ms src)
              (store out run.1) items
    ∧ store (out +:+ "_fails.jsonl") run.1 = [].
Proof.
  intros Hw Hkeys Hp run items. subst run items.
  destruct (shard_model_builds w keys i Hkeys (proj1 Hw)) as [model Hm].
  rewrite (get_responses_loop _ _ _ _ _ _ _ _ _ _ Hp Hm).
  destruct (for_each_never_fails w model ms out src (shard_items all_prompts i prompts) Hw)
    as (tr & -> & Hout & Hfails & Hcalls).
  by exists model.
Qed.

Lemma easy_world_never_fails : never_fails easy_world.
Proof.
  split; [done|]. split; [|done]. intros model idx p. by eexists.
Qed.

Lemma calm_shard_writes_every_record_witness :
  let run := get_responses easy_world [Some "k"] abc 0 2 default_model_settings
               "out.jsonl" "" in
  let items := shard_items abc 0 ["a"; "b"] in
  ∃ model, builds_model easy_world [Some "k"] 0 model
    ∧ run.2 = inr tt
    ∧ calls run.1 = call_of model <$> items
    ∧ Forall2 (λ line item, ∃ output, model_call easy_world model item.1 item.2 = inr output
                                      ∧ line = result_record item.2 output
                                                 default_model_settings "")
              (store "out.jsonl" run.1) items
    ∧ store ("out.jsonl" +:+ "_fails.jsonl") run.1 = [].
Proof.
  apply (calm_shard_writes_every_record easy_world [Some "k"] abc 0 2
           default_model_settings "out.jsonl" "" ["a"; "b"]);
    [apply easy_world_never_fails|discriminate|reflexivity].
Defined.

(** ** The whole run *)

Lemma py_slice_Forall2 {A B} (P : A → B → Prop) (l : list A) (k : list B) (i j : Z) :
  Forall2 P l k → Forall2 P (py_slice l i j) (py_slice k i j).
Proof.
  intros Hlk. unfold py_slice. rewrite <- (Forall2_length _ _ _ Hlk).
  by apply Forall2_take, Forall2_drop.
Qed.

Lemma holds_prompts_slice all_prompts prompts i shard_size :
  prompts_of all_prompts = ([], inr prompts) →
  holds_prompts all_prompts i shard_size (py_slice prompts i (i + shard_size)).
Proof.
  intros Hall. apply prompts_of_Forall2, py_slice_Forall2. by apply prompts_of_Forall2.
Qed.

Lemma drain_snd (k : nat) (rest : list (list event)) : (drain k rest).*2 = concat rest.
Proof.
  revert k. induction rest as [|tr rest IH]; intros k; [done|].
  cbn [drain concat]. rewrite fmap_app, IH. f_equal.
  rewrite <- list_fmap_compose. apply list_fmap_id.
Qed.

(** The events of a run, forgetting which unit they belong to, are those of
    the units of work. *)
Lemma timeline_events w keys all_prompts num_workers S out src sched :
  0 < S → 0 < num_workers →
  (timeline (collector w keys all_prompts num_workers S out src sched)).*2
  ≡ₚ concat ((λ i, (get_responses w keys all_prompts i S default_model_settings
                      out src).1)
               <$> shard_starts (Z.of_nat (length all_prompts)) S).
Proof.
  intros HS Hw. rewrite collector_runs by done. cbn [timeline].
  rewrite interleave_perm, drain_snd. by rewrite <- list_fmap_compose.
Qed.

#[global] Instance store_Permutation path : Proper ((≡ₚ) ==> (≡ₚ)) (store path).
Proof. intros tr1 tr2 Hperm. unfold store. by rewrite Hperm. Qed.

#[global] Instance calls_Permutation : Proper ((≡ₚ) ==> (≡ₚ)) calls.
Proof. intros tr1 tr2 Hperm. unfold calls. by rewrite Hperm. Qed.

Lemma store_concat path (trs : list (list event)) :
  store path (concat trs) = concat (store path <$> trs).
Proof.
  induction trs as [|tr trs IH]; [done|]. cbn [concat fmap list_fmap].
  by rewrite store_app, IH.
Qed.

Lemma calls_concat (trs : list (list event)) :
  calls (concat trs) = concat (calls <$> trs).
Proof.
  induction trs as [|tr trs IH]; [done|]. cbn [concat fmap list_fmap].
  by rewrite calls_app, IH.
Qed.

Lemma shard_starts_concat {A} (l : list A) (S : Z) :
  0 < S →
  concat ((λ i, py_slice l i (i + S)) <$> shard_starts (Z.of_nat (length l)) S) = l.
Proof.
  intros HS. pose proof (py_range_shards (Z.of_nat (length l)) S HS) as Hrange.
  unfold py_range in Hrange.
  rewrite bool_decide_eq_false_2, bool_decide_eq_true_2 in Hrange by lia.
  injection Hrange as Hrange. unfold shard_starts. rewrite <- Hrange.
  rewrite shards_concat by lia. done.
Qed.

Lemma prompt_of_result_record p output ms src :
  prompt_of_line (result_record p output ms src) = Some p.
Proof. unfold prompt_of_line, result_record. by simplify_map_eq. Qed.

Lemma unit_never_fails w keys all_prompts prompts i S ms out src :
  never_fails w → keys ≠ [] →
  prompts_of all_prompts = ([], inr prompts) →
  let run := get_responses w keys all_prompts i S ms out src in
  run.2 = inr tt
  ∧ prompt_of_line <$> store out run.1 = Some <$> py_slice prompts i (i + S)
  ∧ store (out +:+ "_fails.jsonl") run.1 = []
  ∧ (calls run.1).*2 = py_slice prompts i (i + S).
Proof.
  intros Hw Hkeys Hall run. subst run.
  pose proof (holds_prompts_slice _ _ i S Hall) as Hp.
  destruct (shard_model_builds w keys i Hkeys (proj1 Hw)) as [model Hm].
  rewrite (get_responses_loop _ _ _ _ _ _ _ _ _ _ Hp Hm).
  destruct (for_each_never_fails w model ms out src
              (shard_items all_prompts i (py_slice prompts i (i + S))) Hw)
    as (tr & -> & Hout & Hfails & Hcalls).
  cbn [fst snd]. split; [done|]. split; [|split; [done|]].
  - unfold shard_items in Hout.
    rewrite <- (enumerate_from_snd (slice_bound (Z.of_nat (length all_prompts)) i)
                  (py_slice prompts i (i + S))) at 1.
    rewrite <- list_fmap_compose.
    generalize dependent (store out tr).
    generalize (enumerate_from (slice_bound (Z.of_nat (length all_prompts)) i)
                  (py_slice prompts i (i + S))).
    intros items lines Hout.
    induction Hout as [|line item lines items (output & _ & ->) _ IH]; [done|].
    rewrite !fmap_cons, prompt_of_result_record. by f_equal.
  - rewrite Hcalls, <- list_fmap_compose. unfold shard_items.
    by rewrite <- (enumerate_from_snd (slice_bound (Z.of_nat (length all_prompts)) i)
                     (py_slice prompts i (i + S))) at 2.
Qed.

Lemma concat_fmap {A B} (f : A → B) (ls : list (list A)) :
  f <$> concat ls = concat ((λ l : list A, f <$> l) <$> ls).
Proof.
  induction ls as [|l ls IH]; [done|]. cbn [concat fmap list_fmap].
  by rewrite fmap_app, IH.
Qed.

Lemma all_returned_logs_nothing (results : list (exn + unit)) :
  Forall (λ r, r = inr tt) results → omap logged_error results = [].
Proof. induction 1 as [|r results -> _ IH]; [done|]. exact IH. Qed.

(** X9.  When nothing fails, the scraper has a key and every input record
    has a prompt, a run with a positive shard size returns normally and logs
    no error; the output file gains exactly one record per input prompt (in
    an order that depends on the schedule), the failure file gains nothing,
    and the API has been called once for every prompt. *)
Theorem calm_run_writes_one_record_per_prompt
    w keys all_prompts num_workers S out src sched prompts before :
  never_fails w → keys ≠ [] → 0 < S → 0 < num_workers →
  prompts_of all_prompts = ([], inr prompts) →
  let r := collector w keys all_prompts num_workers S out src sched in
  outcome r = inr tt
  ∧ log r = [LogInfo "Generating Pairs"]
  ∧ (∃ lines, file_after before out r = before ++ lines
              ∧ prompt_of_line <$> lines ≡ₚ Some <$> prompts)
  ∧ file_after before (out +:+ "_fails.jsonl") r = before
  ∧ (calls (timeline r).*2).*2 ≡ₚ prompts.
Proof.
  intros Hw Hkeys HS Hnw Hall r.
  pose proof (timeline_events w keys all_prompts num_workers S out src sched HS Hnw)
    as Hevents. fold r in Hevents.
  pose proof (λ i, unit_never_fails w keys all_prompts prompts i S
                     default_model_settings out src Hw Hkeys Hall) as Hunit.
  cbv zeta in Hunit.
  assert (length prompts = length all_prompts) as Hlen.
  { symmetry. eapply Forall2_length. by apply prompts_of_Forall2. }
  set (starts := shard_starts (Z.of_nat (length all_prompts)) S) in *.
  assert (concat ((λ i, py_slice prompts i (i + S)) <$> starts) = prompts) as Hconcat.
  { unfold starts. rewrite <- Hlen. by apply shard_starts_concat. }
  assert (outcome r = inr tt ∧ log r = [LogInfo "Generating Pairs"]) as [Hout Hlog].
  { subst r. rewrite collector_runs by done. cbn [outcome log]. fold starts.
    match goal with |- context [collect ?rs 0 ?lg] =>
      assert (Forall (λ res : exn + (), res = inr tt) rs) as Hres
    end.
    { rewrite results_of_futures. apply Forall_fmap, Forall_fmap, Forall_forall.
      intros i _. cbn. by destruct (Hunit i) as (-> & _). }
    rewrite collect_all by (eapply Forall_impl; [exact Hres|]; by intros res ->).
    cbn [fst snd]. by rewrite all_returned_logs_nothing. }
  unfold file_after.
  split; [done|]. split; [done|]. split; [|split].
  - eexists. split; [reflexivity|].
    rewrite Hevents, store_concat, concat_fmap, <- !list_fmap_compose.
    rewrite <- Hconcat at 1. rewrite concat_fmap, <- list_fmap_compose.
    match goal with |- ?l ≡ₚ ?k => assert (l = k) as ->; [|done] end.
    f_equal. apply list_fmap_ext. intros _ i _. unfold compose.
    by destruct (Hunit i) as (_ & -> & _).
  - assert (store (out +:+ "_fails.jsonl") (timeline r).*2 = []) as ->;
      [|by rewrite app_nil_r].
    apply Permutation_nil_r. rewrite Hevents, store_concat, <- list_fmap_compose.
    match goal with |- ?l ≡ₚ [] => assert (l = []) as ->; [|done] end.
    clear Hconcat Hevents Hout Hlog. induction starts as [|i starts' IH]; [done|].
    rewrite fmap_cons. unfold compose at 1. cbn [concat].
    by destruct (Hunit i) as (_ & _ & -> & _).
  - rewrite Hevents, calls_concat, concat_fmap, <- !list_fmap_compose.
    rewrite <- Hconcat at 1.
    match goal with |- ?l ≡ₚ ?k => assert (l = k) as ->; [|done] end.
    f_equal. apply list_fmap_ext. intros _ i _. unfold compose.
    by destruct (Hunit i) as (_ & _ & _ & ->).
Qed.

Lemma calm_run_writes_one_record_per_prompt_witness :
  let r := collector easy_world [Some "k"] abc 2 2 "out.jsonl" "" second_first in
  outcome r = inr tt
  ∧ log r = [LogInfo "Generating Pairs"]
  ∧ (∃ lines, file_after [] "out.jsonl" r = [] ++ lines
              ∧ prompt_of_line <$> lines ≡ₚ Some <$> ["a"; "b"; "c"])
  ∧ file_after [] ("out.jsonl" +:+ "_fails.jsonl") r = []
  ∧ (calls (timeline r).*2).*2 ≡ₚ ["a"; "b"; "c"].
Proof.
  apply (calm_run_writes_one_record_per_prompt easy_world [Some "k"] abc 2 2
           "out.jsonl" "" second_first ["a"; "b"; "c"] []);
    [apply easy_world_never_fails|discriminate|lia|lia|reflexivity].
Defined.

(** ** Which prompts are sent to the API *)

Lemma NoDup_offsets (lo : Z) (j : nat) :
  NoDup ((λ t : nat, lo + Z.of_nat t) <$> seq 0 j).
Proof.
  apply NoDup_fmap_2_strong; [|apply NoDup_seq]. intros t t' _ _. lia.
Qed.

(** Blocks of positions that lie in consecutive intervals of length [S] do
    not overlap. *)
Lemma NoDup_concat_blocks (S : Z) (a : nat) (segs : list (list Z)) :
  Forall NoDup segs →
  (∀ (k : nat) seg x, segs !! k = Some seg → x ∈ seg →
     Z.of_nat (a + k) * S ≤ x < Z.of_nat (a + k) * S + S) →
  NoDup (concat segs).
Proof.
  intros Hnd. revert a. induction Hnd as [|seg segs Hseg _ IH]; intros a Hin.
  - constructor.
  - cbn [concat]. apply NoDup_app. split; [done|]. split.
    + intros x Hx Hx'. apply list_elem_of_In in Hx'.
      apply in_concat in Hx' as (seg' & Hseg' & Hx').
      apply list_elem_of_In in Hseg'. apply list_elem_of_In in Hx'.
      apply list_elem_of_lookup in Hseg' as [k Hk].
      pose proof (Hin 0%nat seg x eq_refl Hx).
      pose proof (Hin (Datatypes.S k) seg' x Hk Hx'). nia.
    + apply (IH (Datatypes.S a)). intros k seg' x Hk Hx.
      replace (Datatypes.S a + k)%nat with (a + Datatypes.S k)%nat by lia.
      by apply (Hin (Datatypes.S k) seg' x).
Qed.

(** The calls of the unit of work that starts at [i]: the positions
    [i, i+1, ..] of the first prompts of its shard, each with the prompt of
    the record at that position. *)
Lemma unit_calls_at_positions w keys all_prompts i S ms out src :
  0 ≤ i ≤ Z.of_nat (length all_prompts) → 0 < S →
  let cs := calls (get_responses w keys all_prompts i S ms out src).1 in
  (∃ j : nat, cs.*1.*2 = (λ t : nat, i + Z.of_nat t) <$> seq 0 j ∧ Z.of_nat j ≤ S)
  ∧ ∀ m idx p, (m, idx, p) ∈ cs →
      0 ≤ idx ∧ ∃ d, all_prompts !! Z.to_nat idx = Some d ∧ d !! "prompt" = Some p.
Proof.
  intros Hi HS cs. subst cs.
  destruct (get_responses_cases w keys all_prompts i S ms out src)
    as [[e ->]|(ps & model & Hps & Hm & ->)].
  { split; [exists 0%nat; split; [done|lia]|]. by intros m idx p ?%elem_of_nil. }
  apply prompts_of_Forall2 in Hps.
  destruct (for_each_calls w model ms out src (shard_items all_prompts i ps))
    as (j & Hj & -> & _).
  unfold shard_items in *. rewrite enumerate_from_length in Hj.
  assert (slice_bound (Z.of_nat (length all_prompts)) i = i) as Hlo.
  { unfold slice_bound. rewrite bool_decide_eq_false_2 by lia. lia. }
  rewrite Hlo in *.
  pose proof (Forall2_length _ _ _ Hps) as Hlen.
  rewrite py_slice_take_drop in Hps, Hlen by lia.
  rewrite length_take, length_drop in Hlen.
  split.
  - exists j. split; [|lia].
    rewrite <- !list_fmap_compose.
    assert (snd ∘ fst ∘ call_of model = @fst Z string) as -> by done.
    rewrite fmap_take, enumerate_from_fst, <- fmap_take, take_seq.
    by replace (j `min` length ps)%nat with j by lia.
  - intros m idx p Hin.
    apply list_elem_of_fmap in Hin as ([idx' p'] & [= -> -> ->] & Hin).
    apply elem_of_take in Hin as (t & Hlook & Ht).
    apply enumerate_from_lookup in Hlook as [Hidx Hp]. cbn in Hidx, Hp. subst idx'.
    split; [lia|].
    destruct (Forall2_lookup_r _ _ _ _ _ Hps Hp) as (d & Hd & Hprompt).
    exists d. split; [|done].
    apply lookup_take_Some in Hd as [Hd _]. rewrite lookup_drop in Hd.
    by replace (Z.to_nat (i + Z.of_nat t)) with (Z.to_nat i + t)%nat by lia.
Qed.

(** X10.  Across a whole run with a positive shard size, every API call is
    made for the prompt of one input record, at the position of that
    record, and no position of the input is sent to the API twice, however
    the units of work are scheduled and whatever fails. *)
Theorem no_prompt_is_sent_twice w keys all_prompts num_workers S out src sched :
  0 < S → 0 < num_workers →
  let r := collector w keys all_prompts num_workers S out src sched in
  let cs := calls (timeline r).*2 in
  NoDup (cs.*1.*2)
  ∧ ∀ m idx p, (m, idx, p) ∈ cs →
      0 ≤ idx ∧ ∃ d, all_prompts !! Z.to_nat idx = Some d ∧ d !! "prompt" = Some p.
Proof.
  intros HS Hnw r cs.
  pose proof (timeline_events w keys all_prompts num_workers S out src sched HS Hnw)
    as Hevents. fold r in Hevents.
  assert (cs ≡ₚ concat ((λ i, calls (get_responses w keys all_prompts i S
                                       default_model_settings out src).1)
                          <$> shard_starts (Z.of_nat (length all_prompts)) S)) as Hcs.
  { subst cs. by rewrite Hevents, calls_concat, <- list_fmap_compose. }
  assert (∀ k i, shard_starts (Z.of_nat (length all_prompts)) S !! k = Some i →
            0 ≤ i ≤ Z.of_nat (length all_prompts) ∧ i = Z.of_nat k * S) as Hstart.
  { intros k i [-> Hk]%shard_starts_lookup.
    apply shard_starts_below in Hk; [|done|lia]. split; [nia|done]. }
  split.
  - rewrite Hcs, !concat_fmap, <- !list_fmap_compose.
    apply (NoDup_concat_blocks S 0).
    + apply Forall_fmap, Forall_lookup. intros k i Hk.
      destruct (Hstart k i Hk) as [Hi _]. unfold compose.
      destruct (unit_calls_at_positions w keys all_prompts i S default_model_settings
                  out src Hi HS) as [(j & -> & _) _].
      apply NoDup_offsets.
    + intros k seg x Hk Hx. rewrite list_lookup_fmap in Hk.
      destruct (shard_starts _ _ !! k) as [i|] eqn:Hi; [|done].
      injection Hk as <-. destruct (Hstart k i Hi) as [Hi' ->]. unfold compose in Hx.
      destruct (unit_calls_at_positions w keys all_prompts (Z.of_nat k * S) S
                  default_model_settings out src Hi' HS) as [(j & Hj & Hle) _].
      rewrite Hj in Hx. apply list_elem_of_fmap in Hx as (t & -> & Ht).
      apply elem_of_seq in Ht. cbn [Nat.add]. lia.
  - intros m idx p Hin. rewrite Hcs in Hin.
    apply list_elem_of_In, in_concat in Hin as (seg & Hseg & Hin).
    apply list_elem_of_In, list_elem_of_fmap in Hseg as (i & -> & Hi).
    apply list_elem_of_lookup in Hi as [k Hk]. destruct (Hstart k i Hk) as [Hi _].
    apply list_elem_of_In in Hin.
    destruct (unit_calls_at_positions w keys all_prompts i S default_model_settings
                out src Hi HS) as [_ Hunit].
    by apply (Hunit m idx p).
Qed.

Lemma no_prompt_is_sent_twice_witness :
  let r := collector interrupted_call_world [Some "k"] abc 2 2 "out.jsonl" ""
             second_first in
  let cs := calls (timeline r).*2 in
  NoDup (cs.*1.*2)
  ∧ ∀ m idx p, (m, idx, p) ∈ cs →
      0 ≤ idx ∧ ∃ d, abc !! Z.to_nat idx = Some d ∧ d !! "prompt" = Some p.
Proof.
  apply (no_prompt_is_sent_twice interrupted_call_world [Some "k"] abc 2 2
           "out.jsonl" "" second_first); lia.
Defined.

(** ** A pool of one worker *)

Lemma none_unfinished (rest : list (list event)) :
  length (filter (λ tr, unfinished tr) rest) = 0%nat → Forall (λ tr, tr = []) rest.
Proof.
  induction rest as [|tr rest IH]; [constructor|].
  destruct tr as [|ev tr].
  - rewrite filter_cons_False by (cbn; tauto). intros H. constructor; [done|by apply IH].
  - rewrite filter_cons_True by (cbn; tauto). done.
Qed.

Lemma drain_first_unfinished (j k : nat) (rest : list (list event)) ev tr :
  Forall (λ tr, tr = []) (take k rest) → rest !! k = Some (ev :: tr) →
  drain j rest = ((j + k)%nat, ev) :: drain j (<[k := tr]> rest).
Proof.
  revert j k. induction rest as [|tr0 rest IH]; intros j k; [done|].
  destruct k as [|k]; cbn [take lookup list_lookup insert list_insert drain].
  - intros _ [= ->]. by rewrite Nat.add_0_r.
  - intros Hnil Hk. apply Forall_cons in Hnil as [-> Hnil].
    cbn [fmap list_fmap app]. rewrite (IH (S j) k Hnil Hk).
    by replace (S j + k)%nat with (j + S k)%nat by lia.
Qed.

Lemma interleave_one_worker (turns : list nat) (rest : list (list event)) :
  interleave 1 turns rest = drain 0 rest.
Proof.
  revert rest. induction turns as [|k turns IH]; intros rest; [done|].
  cbn [interleave]. destruct (rest !! k) as [[|ev tr]|] eqn:Hk; [apply IH| |apply IH].
  unfold may_run. case_bool_decide as Hrun; [|apply IH].
  rewrite IH. symmetry. apply (drain_first_unfinished 0 k rest ev tr); [|done].
  apply none_unfinished. lia.
Qed.

(** X11.  With a single worker the units of work run one after the other in
    the order of submission, whatever the schedule: the events of the run
    are those of the first shard, then those of the second, and so on, and
    so every file grows by what the shards append to it, shard by shard in
    the order of the input. *)
Theorem single_worker_runs_the_shards_in_turn w keys all_prompts S out src sched :
  0 < S →
  let r := collector w keys all_prompts 1 S out src sched in
  let unit (i : Z) :=
    get_responses w keys all_prompts i S default_model_settings out src in
  timeline r = drain 0 ((λ i, (unit i).1) <$> submitted r)
  ∧ (timeline r).*2 = concat ((λ i, (unit i).1) <$> submitted r)
  ∧ ∀ path before,
      file_after before path r
      = before ++ concat ((λ i, store path (unit i).1) <$> submitted r).
Proof.
  intros HS r unit.
  assert (timeline r = drain 0 ((λ i, (unit i).1) <$> submitted r)) as Htl.
  { subst r. rewrite collector_runs by lia. cbn [timeline submitted].
    by rewrite interleave_one_worker, <- list_fmap_compose. }
  split; [done|]. split.
  - by rewrite Htl, drain_snd.
  - intros path before. unfold file_after.
    by rewrite Htl, drain_snd, store_concat, <- list_fmap_compose.
Qed.

Lemma single_worker_runs_the_shards_in_turn_witness :
  let r := collector calm_world [Some "k"] abc 1 2 "out.jsonl" "" second_first in
  let unit (i : Z) :=
    get_responses calm_world [Some "k"] abc i 2 default_model_settings "out.jsonl" "" in
  timeline r = drain 0 ((λ i, (unit i).1) <$> submitted r)
  ∧ (timeline r).*2 = concat ((λ i, (unit i).1) <$> submitted r)
  ∧ ∀ path before,
      file_after before path r
      = before ++ concat ((λ i, store path (unit i).1) <$> submitted r).
Proof.
  apply (single_worker_runs_the_shards_in_turn calm_world [Some "k"] abc 2
           "out.jsonl" "" second_first). lia.
Defined.

(** ** An interrupt in a worker *)

Lemma collect_outcome (results : list (exn + unit)) (count : Z) (logged : list log_entry) :
  ((collect results count logged).2 = inr tt ↔ Forall survives results)
  ∧ ∀ e, (collect results count logged).2 = inl e →
      is_Exception e = false ∧ inl e ∈ results
      ∧ (collect results count logged).1.1 < count + Z.of_nat (length results).
Proof.
  revert count logged. induction results as [|[e|[]] results IH]; intros count logged.
  - cbn. split; [done|]. by intros e.
  - cbn [collect]. destruct (is_Exception e) eqn:He.
    + destruct (IH (count + 1) (logged ++ [LogException e])) as [Hiff Hraise].
      split.
      * rewrite Hiff. split; [by constructor|]. by intros [_ ?]%Forall_cons.
      * intros e' He'. destruct (Hraise e' He') as (? & ? & ?).
        split; [done|]. split; [by right|]. cbn [length]. lia.
    + cbn [fst snd]. split.
      * split; [done|]. intros [Hs _]%Forall_cons. cbn in Hs. congruence.
      * intros e' [= <-]. split; [done|]. split; [by left|]. cbn [length]. lia.
  - cbn [collect]. destruct (IH (count + 1) logged) as [Hiff Hraise]. split.
    + rewrite Hiff. split; [by constructor|]. by intros [_ ?]%Forall_cons.
    + intros e' He'. destruct (Hraise e' He') as (? & ? & ?).
      split; [done|]. split; [by right|]. cbn [length]. lia.
Qed.

(** X12.  [collector] returns normally exactly when no unit of work ended
    with an error that is not an [Exception].  When it does not, the error
    it raises is such an error ([KeyboardInterrupt]) of one of the units,
    raised again by [future.result()]; the loop is left at once, so the
    progress bar stays below the number of shards. *)
Theorem interrupt_in_a_unit_ends_the_collection
    w keys all_prompts num_workers S out src sched :
  0 < S → 0 < num_workers →
  let r := collector w keys all_prompts num_workers S out src sched in
  let unit (i : Z) :=
    get_responses w keys all_prompts i S default_model_settings out src in
  (outcome r = inr tt ↔ ∀ i, i ∈ submitted r → survives (unit i).2)
  ∧ ∀ e, outcome r = inl e →
      is_Exception e = false
      ∧ (∃ i, i ∈ submitted r ∧ (unit i).2 = inl e)
      ∧ ∃ count, n <$> progress r = Some count
                 ∧ count < Z.of_nat (length (submitted r)).
Proof.
  intros HS Hnw r unit. subst r. rewrite collector_runs by done.
  cbn [outcome submitted progress n fmap option_fmap option_map].
  set (starts := shard_starts (Z.of_nat (length all_prompts)) S).
  set (futures := (λ i, get_responses w keys all_prompts i S default_model_settings
                          out src) <$> starts).
  set (results := omap (λ k, snd <$> futures !! k)
                       (as_completed (completion sched) (length futures))).
  assert (results ≡ₚ (λ i, (unit i).2) <$> starts) as Hres.
  { unfold results. rewrite results_of_futures. unfold futures.
    by rewrite <- list_fmap_compose. }
  destruct (collect_outcome results 0 [LogInfo "Generating Pairs"]) as [Hiff Hraise].
  split.
  - rewrite Hiff, Hres, Forall_fmap, Forall_forall. done.
  - intros e He. destruct (Hraise e He) as (Hexc & Hin & Hcount).
    split; [done|]. split.
    + rewrite Hres in Hin. apply list_elem_of_fmap in Hin as (i & Hi & Hin).
      by exists i.
    + eexists. split; [reflexivity|].
      pose proof (Permutation_length Hres) as Hlen. rewrite length_fmap in Hlen.
      rewrite Hlen in Hcount. exact Hcount.
Qed.

Lemma interrupt_in_a_unit_ends_the_collection_witness :
  let r := collector interrupted_call_world [Some "k"] abc 2 2 "out.jsonl" ""
             second_first in
  let unit (i : Z) :=
    get_responses interrupted_call_world [Some "k"] abc i 2 default_model_settings
      "out.jsonl" "" in
  (outcome r = inr tt ↔ ∀ i, i ∈ submitted r → survives (unit i).2)
  ∧ ∀ e, outcome r = inl e →
      is_Exception e = false
      ∧ (∃ i, i ∈ submitted r ∧ (unit i).2 = inl e)
      ∧ ∃ count, n <$> progress r = Some count
                 ∧ count < Z.of_nat (length (submitted r)).
Proof.
  apply (interrupt_in_a_unit_ends_the_collection interrupted_call_world [Some "k"] abc
           2 2 "out.jsonl" "" second_first); lia.
Defined.

(** ** The command line *)

Lemma elem_of_events_of (k : nat) (ev : event) (tl : list (nat * event)) :
  (k, ev) ∈ tl → ev ∈ events_of k tl.
Proof.
  intros Hin. unfold events_of. apply list_elem_of_omap. exists (k, ev).
  split; [done|]. by rewrite decide_True.
Qed.

(** Every event of a run is an event of one of the units of work. *)
Lemma timeline_event_of_unit w keys all_prompts num_workers S out src sched k ev :
  0 < S → 0 < num_workers →
  (k, ev) ∈ timeline (collector w keys all_prompts num_workers S out src sched) →
  ∃ i, 0 ≤ i ≤ Z.of_nat (length all_prompts)
    ∧ ev ∈ (get_responses w keys all_prompts i S default_model_settings out src).1.
Proof.
  intros HS Hnw Hin. apply elem_of_events_of in Hin.
  destruct (submitted (collector w keys all_prompts num_workers S out src sched) !! k)
    as [i|] eqn:Hk.
  - rewrite (collector_events_of _ _ _ _ _ _ _ _ _ i HS Hnw Hk) in Hin.
    exists i. split; [|done]. rewrite collector_submitted in Hk by done.
    apply shard_starts_lookup in Hk as [-> Hk].
    apply shard_starts_below in Hk; [|done|lia]. nia.
  - rewrite collector_runs in Hin, Hk by done. cbn [timeline submitted] in Hin, Hk.
    rewrite events_of_interleave, !list_lookup_fmap, Hk in Hin.
    by apply elem_of_nil in Hin.
Qed.

Lemma turn_shape_warns model ms out src idx p tr r msg :
  turn_shape model ms out src idx p (tr, r) → EvWarn msg ∈ tr → msg = skip_warning.
Proof.
  inversion 1; subst; intros Hin;
    repeat (apply elem_of_cons in Hin as [[=]|Hin]; try done);
    by apply elem_of_nil in Hin.
Qed.

(** What the events of a unit of work can be. *)
Lemma get_responses_event w keys all_prompts i S ms out src ev :
  0 ≤ i ≤ Z.of_nat (length all_prompts) → 0 < S →
  ev ∈ (get_responses w keys all_prompts i S ms out src).1 →
  match ev with
  | EvCall model idx p =>
      builds_model w keys i model
      ∧ 0 ≤ idx ∧ ∃ d, all_prompts !! Z.to_nat idx = Some d ∧ d !! "prompt" = Some p
  | EvAppend path line =>
      ∃ d p, d ∈ all_prompts ∧ d !! "prompt" = Some p
        ∧ ((path = out ∧ ∃ output, line = result_record p output ms src)
           ∨ (path = out +:+ "_fails.jsonl" ∧ line = JStr p))
  | EvWarn msg => msg = skip_warning
  end.
Proof.
  intros Hi HS Hin. destruct ev as [model idx p|path line|msg].
  - assert ((model, idx, p)
            ∈ calls (get_responses w keys all_prompts i S ms out src).1) as Hcall.
    { apply list_elem_of_omap. by exists (EvCall model idx p). }
    destruct (unit_calls_at_positions w keys all_prompts i S ms out src Hi HS)
      as [_ Hpos].
    split; [|by apply (Hpos model idx p)].
    destruct (get_responses_calls w keys all_prompts i S ms out src)
      as (k & model' & Hcalls & Hk).
    rewrite Hcalls in Hcall.
    apply list_elem_of_fmap in Hcall as (item & [= -> _ _] & Hitem).
    destruct Hk as [->|Hk]; [|done]. by apply elem_of_nil in Hitem.
  - apply get_responses_appends in Hin as (p & Hp & Hline).
    apply list_elem_of_omap in Hp as (d & Hd & Hprompt).
    exists d, p. split; [|done].
    unfold py_slice in Hd. by apply subseteq_take, subseteq_drop in Hd.
  - destruct (get_responses_cases w keys all_prompts i S ms out src)
      as [[e Hrun]|(ps & model & _ & _ & Hrun)]; rewrite Hrun in Hin.
    { by apply elem_of_nil in Hin. }
    destruct (for_each_turns w model ms out src (shard_items all_prompts i ps))
      as (k & turns & _ & Htr & Hshape & _).
    rewrite Htr in Hin.
    apply list_elem_of_In, in_concat in Hin as (turn & Hturn & Hin).
    apply list_elem_of_In, list_elem_of_lookup in Hturn as [t Ht].
    destruct (Forall2_lookup_l _ _ _ _ _ Hshape Ht) as (item & _ & r & Hturn).
    apply list_elem_of_In in Hin. by eapply turn_shape_warns.
Qed.

(** X13.  Whatever happens in a run of the program, every event of it is
    one of these: a call of [gpt-3.5-turbo], with the key of the command
    line or else of the environment and with [max_tokens = -1], for the
    prompt of the record at that position of the input file; a record with
    the default model settings and the empty source, for a prompt of the
    input file, appended to the output file; such a prompt appended to the
    output path followed by [_fails.jsonl]; or the warning of line 57.  No
    other file is written to. *)
Theorem program_only_touches_its_two_files w args environ sched k ev :
  (k, ev) ∈ timeline (main w args environ sched) →
  ∃ data, read_lines w (input_file args) = inr data ∧
    match ev with
    | EvCall model idx p =>
        model = {| model_name := "gpt-3.5-turbo";
                   openai_api_key := py_or (arg_openai_api_key args)
                                           (environ !! "OPENAI_API_KEY");
                   model_kwargs := {[ "max_tokens" := JInt (-1) ]} |}
        ∧ 0 ≤ idx ∧ ∃ d, data !! Z.to_nat idx = Some d ∧ d !! "prompt" = Some p
    | EvAppend path line =>
        ∃ d p, d ∈ data ∧ d !! "prompt" = Some p
          ∧ ((path = output_file args
              ∧ ∃ output, line = result_record p output default_model_settings "")
             ∨ (path = output_file args +:+ "_fails.jsonl" ∧ line = JStr p))
    | EvWarn msg => msg = skip_warning
    end.
Proof.
  intros Hin.
  destruct (main_cases w args environ sched)
    as [[e Hstop]|(data & prompts & Hread & Hprompts)].
  { rewrite Hstop in Hin. by apply elem_of_nil in Hin. }
  rewrite (main_runs _ _ _ _ _ _ Hread Hprompts) in Hin.
  apply timeline_event_of_unit in Hin as (i & Hi & Hin); [|lia..].
  apply get_responses_event in Hin; [|done|lia].
  apply prompts_of_Forall2 in Hprompts.
  assert (∀ (t : nat) d p,
            ((λ prompt : string, ({[ "prompt" := prompt ]} : gmap string string))
               <$> prompts) !! t = Some d →
            d !! "prompt" = Some p →
            ∃ d', data !! t = Some d' ∧ d' !! "prompt" = Some p) as Hdata.
  { intros t d p Hd Hp. rewrite list_lookup_fmap in Hd.
    destruct (prompts !! t) as [p'|] eqn:Ht; [|done]. injection Hd as <-.
    rewrite lookup_singleton_eq in Hp. injection Hp as ->.
    by destruct (Forall2_lookup_r _ _ _ _ _ Hprompts Ht) as (d' & ? & ?); exists d'. }
  exists data. split; [done|]. destruct ev as [model idx p|path line|msg]; [| |done].
  - destruct Hin as (Hmodel & Hidx & d & Hd & Hp).
    apply builds_model_config in Hmodel as (Hname & Hkwargs & Hkey).
    apply list_elem_of_singleton in Hkey.
    split; [destruct model; cbn in *; by subst|]. split; [done|]. by eapply Hdata.
  - destruct Hin as (d & p & Hd & Hp & Hline).
    apply list_elem_of_lookup in Hd as [t Hd].
    destruct (Hdata t d p Hd Hp) as (d' & Hd' & Hp').
    exists d', p. split; [by eapply list_elem_of_lookup_2|]. done.
Qed.

Lemma program_only_touches_its_two_files_witness :
  ∃ data, read_lines calm_world (input_file no_key) = inr data ∧
    (gpt "k" = {| model_name := "gpt-3.5-turbo";
                  openai_api_key :=
                    py_or (arg_openai_api_key no_key)
                          (({[ "OPENAI_API_KEY" := "k" ]} : gmap string string)
                             !! "OPENAI_API_KEY");
                  model_kwargs := {[ "max_tokens" := JInt (-1) ]} |}
     ∧ 0 ≤ 0 ∧ ∃ d, data !! Z.to_nat 0 = Some d ∧ d !! "prompt" = Some "a").
Proof.
  apply (program_only_touches_its_two_files calm_world no_key
           {[ "OPENAI_API_KEY" := "k" ]} in_turn 0%nat (EvCall (gpt "k") 0 "a")).
  apply list_elem_of_In. vm_compute. left. reflexivity.
Defined.

Lemma read_prompts_stops (pre : list (gmap string string))
    (line : exn + gmap string string) (post : list (exn + gmap string string)) e :
  Forall (λ d : gmap string string, is_Some (d !! "prompt")) pre →
  line = inl e ∨ (∃ d, line = inr d ∧ d !! "prompt" = None ∧ e = KeyError) →
  read_prompts ((inr <$> pre) ++ line :: post) = ([], inl e).
Proof.
  intros Hpre Hline. induction Hpre as [|d pre [p Hp] _ IH].
  - cbn [fmap list_fmap app read_prompts].
    destruct Hline as [->|(d & -> & Hd & ->)]; [done|].
    cbn [next_datum]. rewrite (bind_ret_l d). unfold get_prompt. by rewrite Hd.
  - rewrite fmap_cons. cbn [app read_prompts next_datum]. rewrite (bind_ret_l d).
    unfold get_prompt. rewrite Hp, (bind_ret_l p). by rewrite IH.
Qed.

(** X14.  The input is read line by line, and the prompt of a record is
    taken as soon as the record is read.  When the input file cannot be
    opened, or when after some records that have a prompt there comes a
    line that cannot be decoded or a record without a prompt, the program
    ends with the error met first (that of the open, that of the line, or
    [KeyError]), whatever the lines after it are, before the dispatcher is
    entered: no unit of work is submitted, nothing is logged, no progress
    bar is made and no file is touched. *)
Theorem unusable_input_stops_the_program w args environ sched e :
  reader w (input_file args) = inl e
  ∨ (∃ pre line post,
       reader w (input_file args) = inr ((inr <$> pre) ++ line :: post)
       ∧ Forall (λ d : gmap string string, is_Some (d !! "prompt")) pre
       ∧ (line = inl e ∨ (∃ d, line = inr d ∧ d !! "prompt" = None ∧ e = KeyError))) →
  let r := main w args environ sched in
  submitted r = [] ∧ timeline r = [] ∧ log r = [] ∧ progress r = None
  ∧ outcome r = inl e
  ∧ ∀ path before, file_after before path r = before.
Proof.
  intros Hbad r.
  assert (r = {| submitted := []; timeline := []; log := []; progress := None;
                 outcome := inl e |}) as ->.
  { subst r. unfold main. destruct Hbad as [->|(pre & line & post & -> & Hpre & Hline)].
    - done.
    - by rewrite (read_prompts_stops pre line post e Hpre Hline). }
  cbn [submitted timeline log progress outcome]. repeat split.
  intros path before. unfold file_after. cbn. by rewrite app_nil_r.
Qed.

Lemma unusable_input_stops_the_program_witness :
  let r := main untidy_world no_key ∅ in_turn in
  submitted r = [] ∧ timeline r = [] ∧ log r = [] ∧ progress r = None
  ∧ outcome r = inl KeyError
  ∧ ∀ path before, file_after before path r = before.
Proof.
  apply (unusable_input_stops_the_program untidy_world no_key ∅ in_turn KeyError).
  right. exists [ {[ "prompt" := "a" ]} ], (inr {[ "text" := "b" ]}), [inl ValueError].
  split; [reflexivity|]. split.
  - constructor; [by exists "a"|constructor].
  - right. exists {[ "text" := "b" ]}. repeat split; reflexivity.
Defined.

(** ** An input that fits in one shard *)

Lemma shard_starts_one (N S : Z) : 0 < N ≤ S → shard_starts N S = [0].
Proof.
  intros HN. unfold shard_starts, ceil_div.
  assert ((N + S - 1) / S = 1) as ->; [|done].
  symmetry. apply (Z.div_unique_pos _ _ 1 (N - 1)); lia.
Qed.

Lemma interleave_one_unit (max_workers : Z) (turns : list nat) (tr : list event) :
  0 < max_workers →
  interleave max_workers turns [tr] = (λ ev, (0%nat, ev)) <$> tr.
Proof.
  intros Hw. revert tr. induction turns as [|k turns IH]; intros tr.
  - cbn. by rewrite app_nil_r.
  - cbn [interleave]. destruct k as [|k]; [|apply IH].
    cbn [lookup list_lookup]. destruct tr as [|ev tr]; [apply IH|].
    unfold may_run. cbn [take filter list_filter length].
    rewrite bool_decide_eq_true_2 by lia.
    cbn [insert list_insert fmap list_fmap]. by rewrite IH.
Qed.

Lemma as_completed_one (completion : list nat) : as_completed completion 1 = [0%nat].
Proof. apply Permutation_singleton_r. by rewrite as_completed_perm. Qed.

(** X15.  An input of at most [shard_size] records is one shard: a single
    unit of work is submitted and the whole run is that unit, its events in
    their order, however many workers the pool has.  If the input is
    shorter than [shard_size] the progress bar is made for a total of 0,
    and still counts to 1 when the unit is collected. *)
Theorem small_input_is_one_sequential_shard
    w keys all_prompts num_workers S out src sched :
  0 < num_workers → 0 < Z.of_nat (length all_prompts) ≤ S →
  let N := Z.of_nat (length all_prompts) in
  let r := collector w keys all_prompts num_workers S out src sched in
  let run := get_responses w keys all_prompts 0 S default_model_settings out src in
  submitted r = [0]
  ∧ timeline r = (λ ev, (0%nat, ev)) <$> run.1
  ∧ (∀ path before, file_after before path r = before ++ store path run.1)
  ∧ total <$> progress r = Some (if bool_decide (N = S) then 1 else 0)
  ∧ (survives run.2 → n <$> progress r = Some 1 ∧ outcome r = inr tt).
Proof.
  intros Hnw HN N r run.
  assert (r = let '(count, logged, res) :=
                collect [run.2] 0 [LogInfo "Generating Pairs"] in
              {| submitted := [0];
                 timeline := (λ ev, (0%nat, ev)) <$> run.1;
                 log := logged;
                 progress := Some {| total := N / S; n := count |};
                 outcome := res |}) as Hr.
  { subst r. rewrite collector_runs by lia. rewrite shard_starts_one by done.
    cbn [fmap list_fmap length]. rewrite as_completed_one.
    cbn [omap list_omap lookup list_lookup fmap option_fmap option_map].
    rewrite interleave_one_unit by done.
    by destruct (collect _ _ _) as [[count logged] res]. }
  assert (N / S = if bool_decide (N = S) then 1 else 0) as Htotal.
  { case_bool_decide as HNS.
    - rewrite HNS. apply Z.div_same. lia.
    - apply Z.div_small. lia. }
  rewrite Hr. destruct (run.2) as [e|[]] eqn:Hrun; cbn [collect].
  - destruct (is_Exception e) eqn:He; cbn [submitted timeline progress outcome];
      (split; [done|]); (split; [done|]);
      (split; [intros path before; unfold file_after; cbn [timeline];
               rewrite <- list_fmap_compose; by rewrite list_fmap_id|]);
      (split; [cbn; by rewrite Htotal|]); cbn; [done|congruence].
  - cbn [submitted timeline progress outcome].
    split; [done|]. split; [done|].
    split; [intros path before; unfold file_after; cbn [timeline];
            rewrite <- list_fmap_compose; by rewrite list_fmap_id|].
    split; [cbn; by rewrite Htotal|]. done.
Qed.

Lemma small_input_is_one_sequential_shard_witness :
  let r := collector calm_world [Some "k"] abc 10 200 "out.jsonl" "" second_first in
  let run := get_responses calm_world [Some "k"] abc 0 200 default_model_settings
               "out.jsonl" "" in
  submitted r = [0]
  ∧ timeline r = (λ ev, (0%nat, ev)) <$> run.1
  ∧ (∀ path before, file_after before path r = before ++ store path run.1)
  ∧ total <$> progress r = Some (if bool_decide (Z.of_nat (length abc) = 200) then 1 else 0)
  ∧ (survives run.2 → n <$> progress r = Some 1 ∧ outcome r = inr tt).
Proof.
  apply (small_input_is_one_sequential_shard calm_world [Some "k"] abc 10 200
           "out.jsonl" "" second_first); cbn; lia.
Defined.

(** ** A shard outside the input *)

Lemma py_slice_outside {A} (l : list A) (i S : Z) :
  0 ≤ i → Z.of_nat (length l) ≤ i ∨ S = 0 → py_slice l i (i + S) = [].
Proof.
  intros Hi [Hlen| ->].
  - unfold py_slice. rewrite drop_ge; [by rewrite take_nil|].
    unfold slice_bound. rewrite bool_decide_eq_false_2 by lia. lia.
  - unfold py_slice. by rewrite Z.add_0_r, Z.sub_diag.
Qed.

(** X16.  A unit of work whose shard starts at or after the end of the
    input, or has size 0, calls nothing and writes nothing; it
    still draws a key and builds the model first, and returns exactly when
    that succeeds. *)
Theorem empty_shard_only_builds_the_model w keys all_prompts i S ms out src :
  0 ≤ i → Z.of_nat (length all_prompts) ≤ i ∨ S = 0 →
  let run := get_responses w keys all_prompts i S ms out src in
  run.1 = [] ∧ (run.2 = inr tt ↔ ∃ model, builds_model w keys i model).
Proof.
  intros Hi Hout run. subst run.
  rewrite get_responses_unfold, py_slice_outside by done.
  cbn [prompts_of]. rewrite (bind_ret_l []). unfold builds_model.
  pose proof (shard_model_silent w keys i) as Hsilent.
  destruct (shard_model w keys i) as [tr [e|model]]; cbn in Hsilent; subst tr.
  - rewrite bind_raises. split; [done|]. split; [done|]. by intros [model ?].
  - rewrite (bind_ret_l model). split; [done|]. split; [|done]. by exists model.
Qed.

Lemma empty_shard_only_builds_the_model_witness :
  let run := get_responses calm_world [None] abc 4 2 default_model_settings
               "out.jsonl" "" in
  run.1 = [] ∧ (run.2 = inr tt ↔ ∃ model, builds_model calm_world [None] 4 model).
Proof.
  apply (empty_shard_only_builds_the_model calm_world [None] abc 4 2
           default_model_settings "out.jsonl" ""); [lia|left; cbn; lia].
Defined.
